(** * gd.image.sprite: sprites over a store of shared geometry objects

    A shallow embedding of [gd/image/sprite.py].  Python objects are
    references: a [Sprite] holds references to its [Size], [Rectangle],
    [Point] and alias-set objects, and several sprites (or several
    attributes of one sprite) may hold the same reference.  The store below
    keeps that sharing explicit.  Numbers are binary64 floats, as Python's
    [float]; [copy_level] is an unbounded integer. *)

From Stdlib Require Import ZArith String PrimFloat.
From stdpp Require Import base option list strings gmap.

(** ** Data model *)

(** Object references. *)
Abbreviation loc := nat (only parsing).

(** Modelled from the spec: the classes of [gd/image/geometry.py], which is
    not among the sources.  Data model: "Point [{x: float, y: float}]",
    "Size [{width: float, height: float}]", "Rectangle [{x: float, y: float,
    width: float, height: float}]". *)
Module Point.
Record t := mk { x : float; y : float }.
End Point.

Module Size.
Record t := mk { width : float; height : float }.
End Size.

Module Rectangle.
Record t := mk { x : float; y : float; width : float; height : float }.
End Rectangle.

(** The attrs dataclass [Sprite]; object-valued attributes are references,
    [sheet_unchecked] is [None] or a reference to a [Sheet]. *)
Module Sprite.
Record t := mk {
  name : string;
  aliases : loc;
  relative_offset : loc;
  size : loc;
  source_size : loc;
  rectangle : loc;
  rotated : bool;
  copy_level : Z;
  sheet_unchecked : option loc
}.
End Sprite.

(** The store: one table per class, indexed by reference.  A new object
    takes the next free index. *)
Record heap := mkHeap {
  points : list Point.t;
  sizes : list Size.t;
  rects : list Rectangle.t;
  sets : list (gset string);
  sprites : list Sprite.t
}.

(** ** Computations over the store *)

Inductive exn :=
| ValueError (msg : string).

Inductive outcome (A : Type) :=
| Normal (a : A)
| Raised (e : exn).
Arguments Normal {A} a.
Arguments Raised {A} e.

(** [None] stands for a reference that the store does not hold; Python has
    no such state, the theorems exclude it by hypothesis. *)
Definition M (A : Type) : Type := heap -> option (outcome A * heap).

Definition ret {A} (a : A) : M A := fun h => Some (Normal a, h).

Definition raise {A} (e : exn) : M A := fun h => Some (Raised e, h).

Definition bind {A B} (m : M A) (f : A -> M B) : M B :=
  fun h =>
    match m h with
    | Some (Normal a, h') => f a h'
    | Some (Raised e, h') => Some (Raised e, h')
    | None => None
    end.

#[global] Instance M_ret : MRet M := @ret.
#[global] Instance M_bind : MBind M := fun A B f m => bind m f.

Definition read {A} (tbl : heap -> list A) (l : loc) : M A :=
  fun h => match tbl h !! l with
           | Some v => Some (Normal v, h)
           | None => None
           end.

Definition set_points (f : list Point.t -> list Point.t) (h : heap) : heap :=
  mkHeap (f (points h)) (sizes h) (rects h) (sets h) (sprites h).

Definition set_sizes (f : list Size.t -> list Size.t) (h : heap) : heap :=
  mkHeap (points h) (f (sizes h)) (rects h) (sets h) (sprites h).

Definition set_rects (f : list Rectangle.t -> list Rectangle.t) (h : heap) : heap :=
  mkHeap (points h) (sizes h) (f (rects h)) (sets h) (sprites h).

Definition set_sprites (f : list Sprite.t -> list Sprite.t) (h : heap) : heap :=
  mkHeap (points h) (sizes h) (rects h) (sets h) (f (sprites h)).

Definition new_point (p : Point.t) : M loc :=
  fun h => Some (Normal (length (points h)), set_points (fun t => t ++ [p]) h).

Definition new_size (s : Size.t) : M loc :=
  fun h => Some (Normal (length (sizes h)), set_sizes (fun t => t ++ [s]) h).

Definition new_rect (r : Rectangle.t) : M loc :=
  fun h => Some (Normal (length (rects h)), set_rects (fun t => t ++ [r]) h).

Definition new_sprite (s : Sprite.t) : M loc :=
  fun h => Some (Normal (length (sprites h)), set_sprites (fun t => t ++ [s]) h).

(** In-place update of an existing object. *)
Definition write_point (l : loc) (p : Point.t) : M unit :=
  fun h => match points h !! l with
           | Some _ => Some (Normal tt, set_points (fun t => <[l:=p]> t) h)
           | None => None
           end.

Definition write_size (l : loc) (s : Size.t) : M unit :=
  fun h => match sizes h !! l with
           | Some _ => Some (Normal tt, set_sizes (fun t => <[l:=s]> t) h)
           | None => None
           end.

Definition write_rect (l : loc) (r : Rectangle.t) : M unit :=
  fun h => match rects h !! l with
           | Some _ => Some (Normal tt, set_rects (fun t => <[l:=r]> t) h)
           | None => None
           end.

Definition write_sprite (l : loc) (s : Sprite.t) : M unit :=
  fun h => match sprites h !! l with
           | Some _ => Some (Normal tt, set_sprites (fun t => <[l:=s]> t) h)
           | None => None
           end.

(** ** gd.image.geometry *)

Module geometry.

(** Modelled from the spec: the methods of [gd/image/geometry.py], which is
    not among the sources.  Data model: "Point - [invert()] swaps x and y in
    place; [inverted()] returns a swapped copy".  Component design:
    "[invert()] mutates and returns self (fluent); [inverted()] is the
    non-mutating form used when the original must survive". *)
Definition swap_point (p : Point.t) : Point.t :=
  Point.mk (Point.y p) (Point.x p).

Definition Point_invert (self : loc) : M loc :=
  p ← read points self;
  write_point self (swap_point p);;
  mret self.

Definition Point_inverted (self : loc) : M loc :=
  p ← read points self;
  new_point (swap_point p).

(** Modelled from the spec: "Size - same invert semantics (swap
    width/height)". *)
Definition swap_size (s : Size.t) : Size.t :=
  Size.mk (Size.height s) (Size.width s).

Definition Size_invert (self : loc) : M loc :=
  s ← read sizes self;
  write_size self (swap_size s);;
  mret self.

Definition Size_inverted (self : loc) : M loc :=
  s ← read sizes self;
  new_size (swap_size s).

(** Modelled from the spec: "Rectangle - [invert_size()] swaps width/height
    without moving the origin"; [inverted_size()], which
    [Sprite.inverted_size] calls, is taken as its non-mutating form: a new
    Rectangle, the original left as it is. *)
Definition swap_rect_size (r : Rectangle.t) : Rectangle.t :=
  Rectangle.mk (Rectangle.x r) (Rectangle.y r) (Rectangle.height r) (Rectangle.width r).

Definition Rectangle_invert_size (self : loc) : M loc :=
  r ← read rects self;
  write_rect self (swap_rect_size r);;
  mret self.

Definition Rectangle_inverted_size (self : loc) : M loc :=
  r ← read rects self;
  new_rect (swap_rect_size r).

(** Modelled from the spec: [==] on geometry values ("[x.inverted().inverted()
    == x] for all finite values") is taken component by component, each
    component compared as Python compares floats, so that NaN differs from
    itself. *)
Definition Point_eq (p q : Point.t) : bool :=
  (Point.x p =? Point.x q)%float && (Point.y p =? Point.y q)%float.

Definition Size_eq (s t : Size.t) : bool :=
  (Size.width s =? Size.width t)%float && (Size.height s =? Size.height t)%float.

Definition Rectangle_eq (r t : Rectangle.t) : bool :=
  (Rectangle.x r =? Rectangle.x t)%float && (Rectangle.y r =? Rectangle.y t)%float &&
  (Rectangle.width r =? Rectangle.width t)%float &&
  (Rectangle.height r =? Rectangle.height t)%float.

Definition Point_finite (p : Point.t) : bool :=
  is_finite (Point.x p) && is_finite (Point.y p).

Definition Size_finite (s : Size.t) : bool :=
  is_finite (Size.width s) && is_finite (Size.height s).

Definition Rectangle_finite (r : Rectangle.t) : bool :=
  is_finite (Rectangle.x r) && is_finite (Rectangle.y r) &&
  is_finite (Rectangle.width r) && is_finite (Rectangle.height r).

End geometry.

(** ** gd.image.sprite *)

Module sprite.
Import geometry.

Definition COPY_SUFFIX : string := "_copy".

(** Python's [str * int]: the string repeated, empty when the count is zero
    or negative. *)
Fixpoint str_repeat (s : string) (n : nat) : string :=
  match n with
  | O => EmptyString
  | S k => (s ++ str_repeat s k)%string
  end.

Definition str_mul (s : string) (n : Z) : string := str_repeat s (Z.to_nat n).

(** Attribute reads [self.<field>]. *)
Definition attr {A} (f : Sprite.t -> A) (self : loc) : M A :=
  s ← read sprites self;
  mret (f s).

Definition point_attr {A} (f : Point.t -> A) (l : loc) : M A :=
  p ← read points l;
  mret (f p).

Definition size_attr {A} (f : Size.t -> A) (l : loc) : M A :=
  s ← read sizes l;
  mret (f s).

Definition rect_attr {A} (f : Rectangle.t -> A) (l : loc) : M A :=
  r ← read rects l;
  mret (f r).

(** The constructor that attrs generates: a new object holding the given
    attribute values. *)
Definition init (name : string) (aliases relative_offset size source_size rectangle : loc)
    (rotated : bool) (copy_level : Z) (sheet_unchecked : option loc) : M loc :=
  new_sprite (Sprite.mk name aliases relative_offset size source_size rectangle
                rotated copy_level sheet_unchecked).

Definition invert_size (self : loc) : M loc :=
  sz ← attr Sprite.size self;
  Size_invert sz;;
  ssz ← attr Sprite.source_size self;
  Size_invert ssz;;
  r ← attr Sprite.rectangle self;
  Rectangle_invert_size r;;
  mret self.

Definition next_copy_level (self : loc) : M Z :=
  c ← attr Sprite.copy_level self;
  mret (c + 1)%Z.

Definition inverted_size (self : loc) : M loc :=
  name ← attr Sprite.name self;
  aliases ← attr Sprite.aliases self;
  relative_offset ← attr Sprite.relative_offset self;
  size ← (sz ← attr Sprite.size self; Size_inverted sz);
  source_size ← (ssz ← attr Sprite.source_size self; Size_inverted ssz);
  rectangle ← (r ← attr Sprite.rectangle self; Rectangle_inverted_size r);
  rotated ← attr Sprite.rotated self;
  copy_level ← next_copy_level self;
  sheet_unchecked ← attr Sprite.sheet_unchecked self;
  init name aliases relative_offset size source_size rectangle
       rotated copy_level sheet_unchecked.

Definition name_with_copy (self : loc) : M string :=
  name ← attr Sprite.name self;
  copy_level ← attr Sprite.copy_level self;
  mret (name ++ str_mul COPY_SUFFIX copy_level)%string.

(** [/ 2] is Python's true division, here on binary64 floats. *)
Definition offset (self : loc) : M loc :=
  ro ← attr Sprite.relative_offset self;
  rx ← point_attr Point.x ro;
  ss ← attr Sprite.source_size self;
  sw ← size_attr Size.width ss;
  rc ← attr Sprite.rectangle self;
  rw ← rect_attr Rectangle.width rc;
  ry ← point_attr Point.y ro;
  sh ← size_attr Size.height ss;
  rh ← rect_attr Rectangle.height rc;
  new_point (Point.mk (rx + (sw - rw) / 2)%float (ry - (sh - rh) / 2)%float).

Definition get_sheet (self : loc) : M loc :=
  result ← attr Sprite.sheet_unchecked self;
  match result with
  | None =>
      n ← name_with_copy self;
      raise (ValueError ("Sheet is not attached to " ++ n ++ "."))
  | Some sheet => mret sheet
  end.

Definition with_sheet (s : Sprite.t) (v : option loc) : Sprite.t :=
  Sprite.mk (Sprite.name s) (Sprite.aliases s) (Sprite.relative_offset s)
            (Sprite.size s) (Sprite.source_size s) (Sprite.rectangle s)
            (Sprite.rotated s) (Sprite.copy_level s) v.

Definition set_sheet (self : loc) (sheet : loc) : M unit :=
  s ← read sprites self;
  write_sprite self (with_sheet s (Some sheet)).

Definition delete_sheet (self : loc) : M unit :=
  s ← read sprites self;
  write_sprite self (with_sheet s None).

(** [sheet = property(get_sheet, set_sheet, delete_sheet)]: assigning
    [self.sheet] calls [set_sheet], [del self.sheet] calls [delete_sheet]. *)
Definition attach_sheet (self : loc) (sheet : loc) : M loc :=
  set_sheet self sheet;;
  mret self.

Definition detach_sheet (self : loc) : M loc :=
  delete_sheet self;;
  mret self.

Definition is_rotated (self : loc) : M bool :=
  attr Sprite.rotated self.

Definition copy (self : loc) : M loc :=
  name ← attr Sprite.name self;
  aliases ← attr Sprite.aliases self;
  relative_offset ← attr Sprite.relative_offset self;
  size ← attr Sprite.size self;
  source_size ← attr Sprite.source_size self;
  rectangle ← attr Sprite.rectangle self;
  rotated ← attr Sprite.rotated self;
  copy_level ← next_copy_level self;
  sheet_unchecked ← attr Sprite.sheet_unchecked self;
  init name aliases relative_offset size source_size rectangle
       rotated copy_level sheet_unchecked.

End sprite.

(** ** Field-wise comparison *)

(** What the [__eq__] that attrs generates compares: the attribute values,
    object attributes by their contents. *)
Record fields := mkFields {
  f_name : string;
  f_aliases : gset string;
  f_relative_offset : Point.t;
  f_size : Size.t;
  f_source_size : Size.t;
  f_rectangle : Rectangle.t;
  f_rotated : bool;
  f_copy_level : Z;
  f_sheet : option loc
}.

Definition view (h : heap) (l : loc) : option fields :=
  s ← sprites h !! l;
  a ← sets h !! Sprite.aliases s;
  ro ← points h !! Sprite.relative_offset s;
  sz ← sizes h !! Sprite.size s;
  ssz ← sizes h !! Sprite.source_size s;
  r ← rects h !! Sprite.rectangle s;
  Some (mkFields (Sprite.name s) a ro sz ssz r (Sprite.rotated s)
                 (Sprite.copy_level s) (Sprite.sheet_unchecked s)).

(** A sprite whose references all resolve in the store. *)
Definition resolves (h : heap) (self : loc) (s : Sprite.t) : Prop :=
  sprites h !! self = Some s /\
  is_Some (sets h !! Sprite.aliases s) /\
  is_Some (points h !! Sprite.relative_offset s) /\
  is_Some (sizes h !! Sprite.size s) /\
  is_Some (sizes h !! Sprite.source_size s) /\
  is_Some (rects h !! Sprite.rectangle s).

(** ** Example stores *)

(** A sprite "hero" trimmed from 100x80 to 60x80, not bound to a sheet. *)
Definition hero : Sprite.t :=
  Sprite.mk "hero" 0 0 0 1 0 false 0 None.

Definition hero_heap : heap :=
  mkHeap [Point.mk 0 0]
         [Size.mk 60 80; Size.mk 100 80]
         [Rectangle.mk 2 3 60 80]
         [{["hero_alt"]}]
         [hero].

(** A sprite built as [Sprite("tile", size=s, source_size=s)]: one Size
    object serves as both attributes. *)
Definition tile : Sprite.t :=
  Sprite.mk "tile" 0 0 0 0 0 false 0 None.

Definition tile_heap : heap :=
  mkHeap [Point.mk 0 0]
         [Size.mk 1 2]
         [Rectangle.mk 0 0 1 2]
         [∅]
         [tile].

(** ** Store transformers and statements *)

(** [invert_size] as a store transformer: the two Size objects and the
    Rectangle are inverted in turn, each at its own reference. *)
Definition invert_size_heap (s : Sprite.t) (h : heap) : heap :=
  set_rects (alter geometry.swap_rect_size (Sprite.rectangle s))
    (set_sizes (alter geometry.swap_size (Sprite.source_size s))
       (set_sizes (alter geometry.swap_size (Sprite.size s)) h)).

(** The sprite that [copy] builds. *)
Definition copy_of (s : Sprite.t) : Sprite.t :=
  Sprite.mk (Sprite.name s) (Sprite.aliases s) (Sprite.relative_offset s)
            (Sprite.size s) (Sprite.source_size s) (Sprite.rectangle s)
            (Sprite.rotated s) (Sprite.copy_level s + 1) (Sprite.sheet_unchecked s).

(** The sprite and the store that [inverted_size] builds. *)
Definition inverted_of (h : heap) (s : Sprite.t) : Sprite.t :=
  Sprite.mk (Sprite.name s) (Sprite.aliases s) (Sprite.relative_offset s)
            (length (sizes h)) (S (length (sizes h))) (length (rects h))
            (Sprite.rotated s) (Sprite.copy_level s + 1) (Sprite.sheet_unchecked s).

Definition inverted_size_heap (s : Sprite.t) (sz ssz : Size.t) (r : Rectangle.t)
    (h : heap) : heap :=
  mkHeap (points h)
         (sizes h ++ [geometry.swap_size sz; geometry.swap_size ssz])
         (rects h ++ [geometry.swap_rect_size r])
         (sets h)
         (sprites h ++ [inverted_of h s]).

(** The copy marker appended once per copy level, one marker after the
    other at the end of the name. *)
Fixpoint marked (name : string) (level : nat) : string :=
  match level with
  | O => name
  | S k => marked name k +:+ sprite.COPY_SUFFIX
  end.

(** What is expected of [invert_size()] on the sprite at [self]: it returns
    [self], and the sprite - the same object, holding the same references -
    then reads the width/height-swapped size, source size and rectangle,
    the rectangle's origin being the same. *)
Definition invert_size_swaps (h : heap) (self : loc) : Prop :=
  exists v h' v',
    view h self = Some v /\
    sprite.invert_size self h = Some (Normal self, h') /\
    sprites h' !! self = sprites h !! self /\
    view h' self = Some v' /\
    f_size v' = Size.mk (Size.height (f_size v)) (Size.width (f_size v)) /\
    f_source_size v' =
      Size.mk (Size.height (f_source_size v)) (Size.width (f_source_size v)) /\
    f_rectangle v' =
      Rectangle.mk (Rectangle.x (f_rectangle v)) (Rectangle.y (f_rectangle v))
                   (Rectangle.height (f_rectangle v)) (Rectangle.width (f_rectangle v)).

(** The fields of the sprite that a computation returns, read in the store
    it leaves. *)
Definition view_of_result (res : option (outcome loc * heap)) : option fields :=
  match res with
  | Some (Normal l, h') => view h' l
  | _ => None
  end.

(** [s.inverted_size()] and [s.copy().invert_size()], each run from the
    store [h], return sprites with equal fields. *)
Definition inversion_forms_agree (h : heap) (self : loc) : Prop :=
  exists v,
    view_of_result (sprite.inverted_size self h) = Some v /\
    view_of_result ((c ← sprite.copy self; sprite.invert_size c) h) = Some v.

(** The same comparison as one run, [s.inverted_size() ==
    s.copy().invert_size()]: the left sprite is built first, the right one
    in the store that leaves, and both are read in the final store. *)
Definition inversion_forms_agree_seq (h : heap) (self : loc) : Prop :=
  exists a ha b hb v,
    sprite.inverted_size self h = Some (Normal a, ha) /\
    (c ← sprite.copy self; sprite.invert_size c) ha = Some (Normal b, hb) /\
    view hb a = Some v /\
    view hb b = Some v.

(** The error of [get_sheet] on an unbound sprite. *)
Definition no_sheet_error (s : Sprite.t) : exn :=
  ValueError ("Sheet is not attached to " +:+
              (Sprite.name s +:+ sprite.str_mul sprite.COPY_SUFFIX (Sprite.copy_level s))
              +:+ ".").

(** A history of [attach_sheet] and [detach_sheet] calls on one sprite. *)
Inductive sheet_op :=
| Attach (sheet : loc)
| Detach.

Definition run_op (self : loc) (op : sheet_op) : M loc :=
  match op with
  | Attach sheet => sprite.attach_sheet self sheet
  | Detach => sprite.detach_sheet self
  end.

Fixpoint run_ops (self : loc) (ops : list sheet_op) : M unit :=
  match ops with
  | [] => mret tt
  | op :: rest => run_op self op;; run_ops self rest
  end.

Definition binding_of (op : sheet_op) : option loc :=
  match op with
  | Attach sheet => Some sheet
  | Detach => None
  end.

(** The binding that the most recent call leaves; the initial one when
    there was no call. *)
Definition binding_after (initial : option loc) (ops : list sheet_op) : option loc :=
  match last ops with
  | Some op => binding_of op
  | None => initial
  end.

(** ** Reading sprites *)

(** [view] reads the sprite and the five objects it refers to, nothing
    else. *)
Lemma view_ext h h' self s :
  sprites h !! self = Some s ->
  sprites h' !! self = Some s ->
  sets h' !! Sprite.aliases s = sets h !! Sprite.aliases s ->
  points h' !! Sprite.relative_offset s = points h !! Sprite.relative_offset s ->
  sizes h' !! Sprite.size s = sizes h !! Sprite.size s ->
  sizes h' !! Sprite.source_size s = sizes h !! Sprite.source_size s ->
  rects h' !! Sprite.rectangle s = rects h !! Sprite.rectangle s ->
  view h' self = view h self.
Proof.
  intros Hs Hs' Ha Hp Hsz Hssz Hr. unfold view.
  rewrite Hs, Hs'. simpl. now rewrite Ha, Hp, Hsz, Hssz, Hr.
Qed.

Lemma view_Some h self s a p sz ssz r :
  sprites h !! self = Some s ->
  sets h !! Sprite.aliases s = Some a ->
  points h !! Sprite.relative_offset s = Some p ->
  sizes h !! Sprite.size s = Some sz ->
  sizes h !! Sprite.source_size s = Some ssz ->
  rects h !! Sprite.rectangle s = Some r ->
  view h self =
    Some (mkFields (Sprite.name s) a p sz ssz r (Sprite.rotated s)
                   (Sprite.copy_level s) (Sprite.sheet_unchecked s)).
Proof.
  intros Hs Ha Hp Hsz Hssz Hr. unfold view.
  rewrite Hs. simpl. now rewrite Ha, Hp, Hsz, Hssz, Hr.
Qed.

(** ** Running computations *)

Lemma bind_run {A B} (m : M A) (f : A -> M B) h a h1 :
  m h = Some (Normal a, h1) -> (m ≫= f) h = f a h1.
Proof. intros E. unfold mbind, M_bind, bind. now rewrite E. Qed.

(** Run the first computation of a sequence, given its result [E]. *)
Tactic Notation "run_step" uconstr(E) := rewrite (bind_run _ _ _ _ _ E).

Lemma read_run {A} (tbl : heap -> list A) l h v :
  tbl h !! l = Some v -> read tbl l h = Some (Normal v, h).
Proof. intros E. unfold read. now rewrite E. Qed.

Lemma attr_run {A} (f : Sprite.t -> A) self h s :
  sprites h !! self = Some s -> sprite.attr f self h = Some (Normal (f s), h).
Proof.
  intros E. unfold sprite.attr.
  now run_step (read_run sprites _ _ _ E).
Qed.

Lemma insert_as_alter {A} (f : A -> A) (t : list A) i v :
  t !! i = Some v -> <[i:=f v]> t = alter f i t.
Proof.
  intros E. rewrite list_insert_alter. apply list_alter_ext; [|reflexivity].
  intros w Hw. congruence.
Qed.

Lemma alter_is_Some {A} (f : A -> A) (t : list A) i j :
  is_Some (t !! j) -> is_Some (alter f i t !! j).
Proof.
  intros Hj. apply lookup_lt_is_Some. rewrite length_alter.
  now apply lookup_lt_is_Some.
Qed.

Lemma alter_involutive {A} (f : A -> A) (t : list A) i :
  (forall v, f (f v) = v) -> alter f i (alter f i t) = t.
Proof.
  intros Hf. rewrite list_alter_alter_eq. apply list_alter_id.
  intros v. apply Hf.
Qed.

(** The in-place inversions as store transformers. *)
Lemma Point_invert_run h l p :
  points h !! l = Some p ->
  geometry.Point_invert l h =
    Some (Normal l, set_points (alter geometry.swap_point l) h).
Proof.
  intros E. unfold geometry.Point_invert.
  run_step (read_run points _ _ _ E).
  unfold mbind, M_bind, bind, write_point. rewrite E. simpl.
  unfold set_points. now rewrite (insert_as_alter _ _ _ _ E).
Qed.

Lemma Size_invert_run h l s :
  sizes h !! l = Some s ->
  geometry.Size_invert l h =
    Some (Normal l, set_sizes (alter geometry.swap_size l) h).
Proof.
  intros E. unfold geometry.Size_invert.
  run_step (read_run sizes _ _ _ E).
  unfold mbind, M_bind, bind, write_size. rewrite E. simpl.
  unfold set_sizes. now rewrite (insert_as_alter _ _ _ _ E).
Qed.

Lemma Rectangle_invert_size_run h l r :
  rects h !! l = Some r ->
  geometry.Rectangle_invert_size l h =
    Some (Normal l, set_rects (alter geometry.swap_rect_size l) h).
Proof.
  intros E. unfold geometry.Rectangle_invert_size.
  run_step (read_run rects _ _ _ E).
  unfold mbind, M_bind, bind, write_rect. rewrite E. simpl.
  unfold set_rects. now rewrite (insert_as_alter _ _ _ _ E).
Qed.

(** The non-mutating inversions allocate. *)
Lemma Point_inverted_run h l p :
  points h !! l = Some p ->
  geometry.Point_inverted l h =
    Some (Normal (length (points h)),
          set_points (fun t => t ++ [geometry.swap_point p]) h).
Proof.
  intros E. unfold geometry.Point_inverted.
  now run_step (read_run points _ _ _ E).
Qed.

Lemma Size_inverted_run h l s :
  sizes h !! l = Some s ->
  geometry.Size_inverted l h =
    Some (Normal (length (sizes h)),
          set_sizes (fun t => t ++ [geometry.swap_size s]) h).
Proof.
  intros E. unfold geometry.Size_inverted.
  now run_step (read_run sizes _ _ _ E).
Qed.

Lemma Rectangle_inverted_size_run h l r :
  rects h !! l = Some r ->
  geometry.Rectangle_inverted_size l h =
    Some (Normal (length (rects h)),
          set_rects (fun t => t ++ [geometry.swap_rect_size r]) h).
Proof.
  intros E. unfold geometry.Rectangle_inverted_size.
  now run_step (read_run rects _ _ _ E).
Qed.

Lemma swap_point_involutive p : geometry.swap_point (geometry.swap_point p) = p.
Proof. now destruct p. Qed.

Lemma swap_size_involutive s : geometry.swap_size (geometry.swap_size s) = s.
Proof. now destruct s. Qed.

Lemma swap_rect_size_involutive r :
  geometry.swap_rect_size (geometry.swap_rect_size r) = r.
Proof. now destruct r. Qed.

Lemma invert_size_run h self s :
  resolves h self s ->
  sprite.invert_size self h = Some (Normal self, invert_size_heap s h).
Proof.
  intros (Hs & _ & _ & [sz Hsz] & Hssz & [r Hr]).
  unfold sprite.invert_size.
  run_step (attr_run _ _ _ _ Hs).
  run_step (Size_invert_run _ _ _ Hsz).
  set (h1 := set_sizes _ h).
  assert (Hs1 : sprites h1 !! self = Some s) by exact Hs.
  run_step (attr_run _ _ _ _ Hs1).
  destruct (alter_is_Some geometry.swap_size (sizes h) (Sprite.size s) _ Hssz)
    as [ssz' Hssz'].
  assert (Hssz1 : sizes h1 !! Sprite.source_size s = Some ssz') by exact Hssz'.
  run_step (Size_invert_run _ _ _ Hssz1).
  set (h2 := set_sizes _ h1).
  assert (Hs2 : sprites h2 !! self = Some s) by exact Hs.
  run_step (attr_run _ _ _ _ Hs2).
  assert (Hr2 : rects h2 !! Sprite.rectangle s = Some r) by exact Hr.
  run_step (Rectangle_invert_size_run _ _ _ Hr2).
  reflexivity.
Qed.

Lemma next_copy_level_run h self s :
  sprites h !! self = Some s ->
  sprite.next_copy_level self h = Some (Normal (Sprite.copy_level s + 1)%Z, h).
Proof.
  intros Hs. unfold sprite.next_copy_level.
  now run_step (attr_run _ _ _ _ Hs).
Qed.

Lemma copy_run h self s :
  sprites h !! self = Some s ->
  sprite.copy self h =
    Some (Normal (length (sprites h)), set_sprites (fun t => t ++ [copy_of s]) h).
Proof.
  intros Hs. unfold sprite.copy.
  do 7 run_step (attr_run _ _ _ _ Hs).
  run_step (next_copy_level_run _ _ _ Hs).
  run_step (attr_run _ _ _ _ Hs).
  reflexivity.
Qed.

Lemma inverted_size_run h self s sz ssz r :
  sprites h !! self = Some s ->
  sizes h !! Sprite.size s = Some sz ->
  sizes h !! Sprite.source_size s = Some ssz ->
  rects h !! Sprite.rectangle s = Some r ->
  sprite.inverted_size self h =
    Some (Normal (length (sprites h)), inverted_size_heap s sz ssz r h).
Proof.
  intros Hs Hsz Hssz Hr. unfold sprite.inverted_size.
  do 3 run_step (attr_run _ _ _ _ Hs).
  set (h1 := set_sizes (fun t => t ++ [geometry.swap_size sz]) h).
  assert (E1 : (sprite.attr Sprite.size self ≫= geometry.Size_inverted) h
               = Some (Normal (length (sizes h)), h1)).
  { run_step (attr_run _ _ _ _ Hs).
    now apply Size_inverted_run. }
  run_step E1.
  assert (Hs1 : sprites h1 !! self = Some s) by exact Hs.
  assert (Hssz1 : sizes h1 !! Sprite.source_size s = Some ssz)
    by (apply lookup_app_l_Some; exact Hssz).
  set (h2 := set_sizes (fun t => t ++ [geometry.swap_size ssz]) h1).
  assert (E2 : (sprite.attr Sprite.source_size self ≫= geometry.Size_inverted) h1
               = Some (Normal (length (sizes h1)), h2)).
  { run_step (attr_run _ _ _ _ Hs1).
    now apply Size_inverted_run. }
  run_step E2.
  assert (Hs2 : sprites h2 !! self = Some s) by exact Hs.
  assert (Hr2 : rects h2 !! Sprite.rectangle s = Some r) by exact Hr.
  set (h3 := set_rects (fun t => t ++ [geometry.swap_rect_size r]) h2).
  assert (E3 : (sprite.attr Sprite.rectangle self ≫= geometry.Rectangle_inverted_size) h2
               = Some (Normal (length (rects h2)), h3)).
  { run_step (attr_run _ _ _ _ Hs2).
    now apply Rectangle_inverted_size_run. }
  run_step E3.
  assert (Hs3 : sprites h3 !! self = Some s) by exact Hs.
  run_step (attr_run _ _ _ _ Hs3).
  run_step (next_copy_level_run _ _ _ Hs3).
  run_step (attr_run _ _ _ _ Hs3).
  unfold sprite.init, new_sprite, inverted_size_heap, inverted_of.
  subst h3 h2 h1. unfold set_sprites, set_rects, set_sizes. simpl.
  rewrite length_app, <- app_assoc. simpl.
  replace (length (sizes h) + 1) with (S (length (sizes h))) by lia.
  reflexivity.
Qed.

Lemma name_with_copy_run h self s :
  sprites h !! self = Some s ->
  sprite.name_with_copy self h =
    Some (Normal (Sprite.name s ++
                  sprite.str_mul sprite.COPY_SUFFIX (Sprite.copy_level s))%string, h).
Proof.
  intros Hs. unfold sprite.name_with_copy.
  now do 2 run_step (attr_run _ _ _ _ Hs).
Qed.

Lemma point_attr_run {A} (f : Point.t -> A) l h p :
  points h !! l = Some p -> sprite.point_attr f l h = Some (Normal (f p), h).
Proof.
  intros E. unfold sprite.point_attr.
  now run_step (read_run points _ _ _ E).
Qed.

Lemma size_attr_run {A} (f : Size.t -> A) l h s :
  sizes h !! l = Some s -> sprite.size_attr f l h = Some (Normal (f s), h).
Proof.
  intros E. unfold sprite.size_attr.
  now run_step (read_run sizes _ _ _ E).
Qed.

Lemma rect_attr_run {A} (f : Rectangle.t -> A) l h r :
  rects h !! l = Some r -> sprite.rect_attr f l h = Some (Normal (f r), h).
Proof.
  intros E. unfold sprite.rect_attr.
  now run_step (read_run rects _ _ _ E).
Qed.

Lemma offset_run h self s p ss r :
  sprites h !! self = Some s ->
  points h !! Sprite.relative_offset s = Some p ->
  sizes h !! Sprite.source_size s = Some ss ->
  rects h !! Sprite.rectangle s = Some r ->
  sprite.offset self h =
    Some (Normal (length (points h)),
          set_points (fun t => t ++
            [Point.mk (Point.x p + (Size.width ss - Rectangle.width r) / 2)%float
                      (Point.y p - (Size.height ss - Rectangle.height r) / 2)%float]) h).
Proof.
  intros Hs Hp Hss Hr. unfold sprite.offset.
  repeat first
    [ run_step (attr_run _ _ _ _ Hs)
    | run_step (point_attr_run _ _ _ _ Hp)
    | run_step (size_attr_run _ _ _ _ Hss)
    | run_step (rect_attr_run _ _ _ _ Hr) ].
  reflexivity.
Qed.

(** ** Derived values *)

(** C1. The render offset of a sprite is a new Point whose components are
    [relative_offset.x + (source_size.width - rectangle.width) / 2] and
    [relative_offset.y - (source_size.height - rectangle.height) / 2]; for
    source size 100x80, a 60x80 rectangle and relative offset (0, 0) they
    are 20 and 0. *)
Theorem offset_formula :
  (forall h self s p ss r,
      sprites h !! self = Some s ->
      points h !! Sprite.relative_offset s = Some p ->
      sizes h !! Sprite.source_size s = Some ss ->
      rects h !! Sprite.rectangle s = Some r ->
      exists o h',
        sprite.offset self h = Some (Normal o, h') /\
        points h' !! o =
          Some (Point.mk
                  (Point.x p + (Size.width ss - Rectangle.width r) / 2)%float
                  (Point.y p - (Size.height ss - Rectangle.height r) / 2)%float)) /\
  (forall h self s rx ry,
      sprites h !! self = Some s ->
      points h !! Sprite.relative_offset s = Some (Point.mk 0 0) ->
      sizes h !! Sprite.source_size s = Some (Size.mk 100 80) ->
      rects h !! Sprite.rectangle s = Some (Rectangle.mk rx ry 60 80) ->
      exists o h',
        sprite.offset self h = Some (Normal o, h') /\
        points h' !! o = Some (Point.mk 20 0)).
Proof.
  split.
  - intros h self s p ss r Hs Hp Hss Hr.
    eexists _, _. split; [exact (offset_run _ _ _ _ _ _ Hs Hp Hss Hr)|].
    simpl. now apply list_lookup_middle.
  - intros h self s rx ry Hs Hp Hss Hr.
    eexists _, _. split; [exact (offset_run _ _ _ _ _ _ Hs Hp Hss Hr)|].
    simpl. now apply list_lookup_middle.
Qed.

Lemma offset_formula_witness :
  sprites hero_heap !! 0 = Some hero /\
  exists o h',
    sprite.offset 0 hero_heap = Some (Normal o, h') /\
    points h' !! o = Some (Point.mk 20 0).
Proof.
  split; [reflexivity|].
  exact (proj2 offset_formula hero_heap 0 hero 2%float 3%float
           eq_refl eq_refl eq_refl eq_refl).
Defined.

Lemma string_app_assoc (a b c : string) : (a +:+ b) +:+ c = a +:+ (b +:+ c).
Proof.
  induction a as [|ch a IH]; [reflexivity|].
  change (String ch ((a +:+ b) +:+ c) = String ch (a +:+ (b +:+ c))).
  now rewrite IH.
Qed.

Lemma string_app_empty_r (a : string) : a +:+ EmptyString = a.
Proof.
  induction a as [|ch a IH]; [reflexivity|].
  change (String ch (a +:+ EmptyString) = String ch a).
  now rewrite IH.
Qed.

Lemma str_repeat_snoc (m : string) (n : nat) :
  sprite.str_repeat m (S n) = sprite.str_repeat m n +:+ m.
Proof.
  induction n as [|n IH].
  - simpl. now rewrite string_app_empty_r.
  - transitivity (m +:+ (sprite.str_repeat m n +:+ m)).
    + change (sprite.str_repeat m (S (S n))) with (m +:+ sprite.str_repeat m (S n)).
      now rewrite IH.
    + symmetry. apply (string_app_assoc m (sprite.str_repeat m n) m).
Qed.

Lemma str_repeat_marked (name : string) (n : nat) :
  name +:+ sprite.str_repeat sprite.COPY_SUFFIX n = marked name n.
Proof.
  induction n as [|n IH].
  - simpl. apply string_app_empty_r.
  - rewrite str_repeat_snoc, <- string_app_assoc, IH. reflexivity.
Qed.

(** C3. [name_with_copy] is the name with the copy marker appended
    [copy_level] times, hence the name itself at copy level 0; a sprite
    "hero" at level 0, its copy and the copy of that copy read "hero",
    "hero_copy" and "hero_copy_copy". *)
Theorem name_with_copy_marked :
  (forall h self s,
      sprites h !! self = Some s ->
      sprite.name_with_copy self h =
        Some (Normal (marked (Sprite.name s) (Z.to_nat (Sprite.copy_level s))), h) /\
      (Sprite.copy_level s = 0%Z ->
       sprite.name_with_copy self h = Some (Normal (Sprite.name s), h))) /\
  (forall h self s,
      sprites h !! self = Some s ->
      Sprite.name s = "hero" ->
      Sprite.copy_level s = 0%Z ->
      exists c1 h1 c2 h2,
        sprite.copy self h = Some (Normal c1, h1) /\
        sprite.copy c1 h1 = Some (Normal c2, h2) /\
        sprite.name_with_copy self h2 = Some (Normal "hero", h2) /\
        sprite.name_with_copy c1 h2 = Some (Normal "hero_copy", h2) /\
        sprite.name_with_copy c2 h2 = Some (Normal "hero_copy_copy", h2)).
Proof.
  assert (G : forall h self s,
             sprites h !! self = Some s ->
             sprite.name_with_copy self h =
               Some (Normal (marked (Sprite.name s)
                                    (Z.to_nat (Sprite.copy_level s))), h)).
  { intros h self s Hs. rewrite (name_with_copy_run _ _ _ Hs).
    unfold sprite.str_mul. now rewrite str_repeat_marked. }
  split.
  - intros h self s Hs. split; [now apply G|].
    intros H0. rewrite (G _ _ _ Hs), H0. reflexivity.
  - intros h self s Hs Hname Hlevel.
    pose proof (copy_run _ _ _ Hs) as E1.
    set (h1 := set_sprites (fun t => t ++ [copy_of s]) h) in E1.
    assert (Hc1 : sprites h1 !! length (sprites h) = Some (copy_of s))
      by now apply list_lookup_middle.
    pose proof (copy_run _ _ _ Hc1) as E2.
    set (h2 := set_sprites (fun t => t ++ [copy_of (copy_of s)]) h1) in E2.
    exists (length (sprites h)), h1, (length (sprites h1)), h2.
    split; [exact E1|]. split; [exact E2|].
    assert (H2s : sprites h2 !! self = Some s).
    { simpl. now do 2 apply lookup_app_l_Some. }
    assert (H2c1 : sprites h2 !! length (sprites h) = Some (copy_of s)).
    { simpl. now apply lookup_app_l_Some. }
    assert (H2c2 : sprites h2 !! length (sprites h1) = Some (copy_of (copy_of s))).
    { simpl. now apply list_lookup_middle. }
    rewrite (G _ _ _ H2s), (G _ _ _ H2c1), (G _ _ _ H2c2).
    simpl. rewrite Hname, Hlevel. simpl. repeat split.
Qed.

Lemma name_with_copy_marked_witness :
  sprites hero_heap !! 0 = Some hero /\
  sprite.name_with_copy 0 hero_heap = Some (Normal "hero", hero_heap).
Proof.
  split; [reflexivity|].
  exact (proj2 (proj1 name_with_copy_marked hero_heap 0 hero eq_refl) eq_refl).
Defined.

(** ** Copies *)

(** C2. [copy()] returns a new Sprite with the name, aliases, relative
    offset, size, source size, rectangle, rotated flag and sheet binding of
    the original (the same objects, so no new Rectangle comes into being),
    with copy level one higher; the original and every other object in the
    store stay as they were. *)
Theorem copy_spec h self s :
  sprites h !! self = Some s ->
  exists c h' s',
    sprite.copy self h = Some (Normal c, h') /\
    c <> self /\
    sprites h !! c = None /\
    sprites h' !! c = Some s' /\
    Sprite.name s' = Sprite.name s /\
    Sprite.aliases s' = Sprite.aliases s /\
    Sprite.relative_offset s' = Sprite.relative_offset s /\
    Sprite.size s' = Sprite.size s /\
    Sprite.source_size s' = Sprite.source_size s /\
    Sprite.rectangle s' = Sprite.rectangle s /\
    Sprite.rotated s' = Sprite.rotated s /\
    Sprite.sheet_unchecked s' = Sprite.sheet_unchecked s /\
    Sprite.copy_level s' = (Sprite.copy_level s + 1)%Z /\
    sprites h' !! self = Some s /\
    (forall l, l <> c -> sprites h' !! l = sprites h !! l) /\
    points h' = points h /\
    sizes h' = sizes h /\
    rects h' = rects h /\
    sets h' = sets h /\
    view h' self = view h self.
Proof.
  intros Hs.
  assert (Hlt : self < length (sprites h)) by (eapply lookup_lt_Some; exact Hs).
  exists (length (sprites h)), (set_sprites (fun t => t ++ [copy_of s]) h), (copy_of s).
  split; [now apply copy_run|].
  split; [lia|].
  split; [now apply lookup_ge_None|].
  split; [simpl; now apply list_lookup_middle|].
  do 9 (split; [reflexivity|]).
  assert (Hself : sprites (set_sprites (fun t => t ++ [copy_of s]) h) !! self = Some s)
    by (simpl; now apply lookup_app_l_Some).
  split; [exact Hself|].
  split.
  { intros l Hl. unfold set_sprites. cbn [sprites]. destruct (decide (l < length (sprites h))) as [Hl'|Hl'].
    - now apply lookup_app_l.
    - transitivity (@None Sprite.t).
      + apply lookup_ge_None_2. rewrite length_app. simpl. lia.
      + symmetry. apply lookup_ge_None_2. lia. }
  do 4 (split; [reflexivity|]).
  unfold view. rewrite Hself, Hs. reflexivity.
Qed.

Lemma copy_spec_witness :
  sprites hero_heap !! 0 = Some hero /\
  exists c h',
    sprite.copy 0 hero_heap = Some (Normal c, h') /\
    c <> 0 /\ view h' 0 = view hero_heap 0.
Proof.
  split; [reflexivity|].
  destruct (copy_spec hero_heap 0 hero eq_refl)
    as (c & h' & s' & E & Hc & _ & _ & _ & _ & _ & _ & _ & _ & _ & _ & _ & _ & _ & _ & _ & _ & _ & Hv).
  exists c, h'. repeat split; assumption.
Defined.

(** C6. [inverted_size()] returns a new Sprite whose size, source size and
    rectangle are new objects holding the width/height-swapped values, with
    copy level one higher and the original's name, aliases, relative offset,
    rotated flag and sheet binding; every object that was in the store,
    the original sprite and its rectangle among them, is left as it was. *)
Theorem inverted_size_spec h self s sz ssz r :
  sprites h !! self = Some s ->
  sizes h !! Sprite.size s = Some sz ->
  sizes h !! Sprite.source_size s = Some ssz ->
  rects h !! Sprite.rectangle s = Some r ->
  exists c h' s',
    sprite.inverted_size self h = Some (Normal c, h') /\
    c <> self /\
    sprites h !! c = None /\
    sprites h' !! c = Some s' /\
    sizes h !! Sprite.size s' = None /\
    sizes h !! Sprite.source_size s' = None /\
    rects h !! Sprite.rectangle s' = None /\
    sizes h' !! Sprite.size s' = Some (Size.mk (Size.height sz) (Size.width sz)) /\
    sizes h' !! Sprite.source_size s' =
      Some (Size.mk (Size.height ssz) (Size.width ssz)) /\
    rects h' !! Sprite.rectangle s' =
      Some (Rectangle.mk (Rectangle.x r) (Rectangle.y r)
                         (Rectangle.height r) (Rectangle.width r)) /\
    Sprite.copy_level s' = (Sprite.copy_level s + 1)%Z /\
    Sprite.name s' = Sprite.name s /\
    Sprite.aliases s' = Sprite.aliases s /\
    Sprite.relative_offset s' = Sprite.relative_offset s /\
    Sprite.rotated s' = Sprite.rotated s /\
    Sprite.sheet_unchecked s' = Sprite.sheet_unchecked s /\
    sprites h' !! self = Some s /\
    sizes h' !! Sprite.size s = Some sz /\
    sizes h' !! Sprite.source_size s = Some ssz /\
    rects h' !! Sprite.rectangle s = Some r /\
    points h' = points h /\
    sets h' = sets h /\
    (forall l v, sprites h !! l = Some v -> sprites h' !! l = Some v) /\
    (forall l v, sizes h !! l = Some v -> sizes h' !! l = Some v) /\
    (forall l v, rects h !! l = Some v -> rects h' !! l = Some v) /\
    view h' self = view h self.
Proof.
  intros Hs Hsz Hssz Hr.
  assert (Hlt : self < length (sprites h)) by (eapply lookup_lt_Some; exact Hs).
  exists (length (sprites h)), (inverted_size_heap s sz ssz r h), (inverted_of h s).
  assert (Ksp : forall l v, sprites h !! l = Some v ->
                  sprites (inverted_size_heap s sz ssz r h) !! l = Some v)
    by (intros l v Hl; now apply lookup_app_l_Some).
  assert (Ksz : forall l v, sizes h !! l = Some v ->
                  sizes (inverted_size_heap s sz ssz r h) !! l = Some v)
    by (intros l v Hl; now apply lookup_app_l_Some).
  assert (Krc : forall l v, rects h !! l = Some v ->
                  rects (inverted_size_heap s sz ssz r h) !! l = Some v)
    by (intros l v Hl; now apply lookup_app_l_Some).
  split; [now apply inverted_size_run|].
  split; [lia|].
  split; [now apply lookup_ge_None_2|].
  split; [now apply list_lookup_middle|].
  split; [now apply lookup_ge_None_2|].
  split; [apply lookup_ge_None_2; simpl; lia|].
  split; [now apply lookup_ge_None_2|].
  split; [now apply list_lookup_middle|].
  split.
  { change (sizes (inverted_size_heap s sz ssz r h))
      with (sizes h ++ [geometry.swap_size sz; geometry.swap_size ssz]).
    change (Sprite.source_size (inverted_of h s)) with (S (length (sizes h))).
    rewrite lookup_app_r by lia.
    replace (S (length (sizes h)) - length (sizes h)) with 1 by lia.
    reflexivity. }
  split; [now apply list_lookup_middle|].
  do 6 (split; [reflexivity|]).
  split; [now apply Ksp|].
  split; [now apply Ksz|].
  split; [now apply Ksz|].
  split; [now apply Krc|].
  do 2 (split; [reflexivity|]).
  split; [exact Ksp|]. split; [exact Ksz|]. split; [exact Krc|].
  apply (view_ext _ _ _ s); try reflexivity; try assumption.
  - now apply Ksp.
  - now rewrite (Ksz _ _ Hsz).
  - now rewrite (Ksz _ _ Hssz).
  - now rewrite (Krc _ _ Hr).
Qed.

Lemma inverted_size_spec_witness :
  (sprites hero_heap !! 0 = Some hero /\
   sizes hero_heap !! Sprite.size hero = Some (Size.mk 60 80) /\
   sizes hero_heap !! Sprite.source_size hero = Some (Size.mk 100 80) /\
   rects hero_heap !! Sprite.rectangle hero = Some (Rectangle.mk 2 3 60 80)) /\
  exists c h' s',
    sprite.inverted_size 0 hero_heap = Some (Normal c, h') /\
    sprites h' !! c = Some s' /\
    sizes h' !! Sprite.size s' = Some (Size.mk 80 60) /\
    sizes h' !! Sprite.source_size s' = Some (Size.mk 80 100) /\
    rects h' !! Sprite.rectangle s' = Some (Rectangle.mk 2 3 80 60) /\
    view h' 0 = view hero_heap 0.
Proof.
  split; [repeat split|].
  destruct (inverted_size_spec hero_heap 0 hero (Size.mk 60 80) (Size.mk 100 80)
              (Rectangle.mk 2 3 60 80) eq_refl eq_refl eq_refl eq_refl)
    as (c & h' & s' & E & _ & _ & Hc & _ & _ & _ & H1 & H2 & H3 & _ & _ & _ & _
        & _ & _ & _ & _ & _ & _ & _ & _ & _ & _ & _ & Hv).
  exists c, h', s'. repeat split; assumption.
Defined.

(** ** In-place inversion *)

Lemma float_1_neq_2 : (1 : float) <> (2 : float).
Proof.
  intros E. apply (f_equal (fun f => PrimFloat.eqb f 1)) in E.
  vm_compute in E. discriminate E.
Qed.

Lemma invert_size_heap_resolves h self s :
  resolves h self s -> resolves (invert_size_heap s h) self s.
Proof.
  intros (Hs & Ha & Hp & Hsz & Hssz & Hr).
  repeat split; try assumption.
  - unfold invert_size_heap, set_rects, set_sizes. cbn [sizes].
    now do 2 apply alter_is_Some.
  - unfold invert_size_heap, set_rects, set_sizes. cbn [sizes].
    now do 2 apply alter_is_Some.
  - unfold invert_size_heap, set_rects, set_sizes. cbn [rects].
    now apply alter_is_Some.
Qed.

(** With two distinct Size objects each is inverted once. *)
Lemma invert_size_heap_sizes h s sz ssz :
  Sprite.size s <> Sprite.source_size s ->
  sizes h !! Sprite.size s = Some sz ->
  sizes h !! Sprite.source_size s = Some ssz ->
  sizes (invert_size_heap s h) !! Sprite.size s = Some (geometry.swap_size sz) /\
  sizes (invert_size_heap s h) !! Sprite.source_size s = Some (geometry.swap_size ssz).
Proof.
  intros Hne Hsz Hssz.
  unfold invert_size_heap, set_rects, set_sizes. cbn [sizes]. split.
  - rewrite list_lookup_alter_ne by congruence.
    now rewrite list_lookup_alter_eq, Hsz.
  - rewrite list_lookup_alter_eq, list_lookup_alter_ne by congruence.
    now rewrite Hssz.
Qed.

Lemma invert_size_heap_rect h s r :
  rects h !! Sprite.rectangle s = Some r ->
  rects (invert_size_heap s h) !! Sprite.rectangle s =
    Some (geometry.swap_rect_size r).
Proof.
  intros Hr. unfold invert_size_heap, set_rects, set_sizes. cbn [rects].
  now rewrite list_lookup_alter_eq, Hr.
Qed.

(** When one Size object serves as both [size] and [source_size] it is
    inverted twice, which leaves it as it was. *)
Lemma invert_size_heap_sizes_shared h s :
  Sprite.size s = Sprite.source_size s ->
  sizes (invert_size_heap s h) = sizes h.
Proof.
  intros E. unfold invert_size_heap, set_rects, set_sizes. cbn [sizes].
  rewrite <- E. apply alter_involutive, swap_size_involutive.
Qed.

Lemma invert_size_heap_twice h s :
  invert_size_heap s (invert_size_heap s h) = h.
Proof.
  destruct h as [pt sz rc st sp].
  unfold invert_size_heap, set_rects, set_sizes. simpl. f_equal.
  - destruct (decide (Sprite.size s = Sprite.source_size s)) as [E|Hne].
    + rewrite <- E.
      now rewrite !(alter_involutive _ _ _ swap_size_involutive).
    + rewrite (list_alter_alter_ne geometry.swap_size geometry.swap_size
                 _ (Sprite.size s) (Sprite.source_size s)) by exact Hne.
      now rewrite !(alter_involutive _ _ _ swap_size_involutive).
  - apply alter_involutive, swap_rect_size_involutive.
Qed.

(** C10. [invert_size()] leaves the sprite's name, aliases, relative
    offset, rotated flag, copy level and sheet binding as they were: the
    Sprite object itself, every Point and every alias set are untouched. *)
Theorem invert_size_frame h self s :
  resolves h self s ->
  exists h',
    sprite.invert_size self h = Some (Normal self, h') /\
    sprites h' = sprites h /\
    points h' = points h /\
    sets h' = sets h /\
    sprites h' !! self = Some s /\
    exists v v',
      view h self = Some v /\
      view h' self = Some v' /\
      f_name v' = f_name v /\
      f_aliases v' = f_aliases v /\
      f_relative_offset v' = f_relative_offset v /\
      f_rotated v' = f_rotated v /\
      f_copy_level v' = f_copy_level v /\
      f_sheet v' = f_sheet v.
Proof.
  intros Hres. exists (invert_size_heap s h).
  split; [now apply invert_size_run|].
  do 3 (split; [reflexivity|]).
  pose proof (invert_size_heap_resolves _ _ _ Hres) as Hres'.
  destruct Hres as (Hs & [a Ha] & [p Hp] & [sz Hsz] & [ssz Hssz] & [r Hr]).
  destruct Hres' as (Hs' & [a' Ha'] & [p' Hp'] & [sz' Hsz'] & [ssz' Hssz'] & [r' Hr']).
  split; [exact Hs'|].
  assert (a' = a) as -> by (change (sets h !! Sprite.aliases s = Some a') in Ha'; congruence).
  assert (p' = p) as ->
      by (change (points h !! Sprite.relative_offset s = Some p') in Hp'; congruence).
  eexists _, _.
  split; [exact (view_Some _ _ _ _ _ _ _ _ Hs Ha Hp Hsz Hssz Hr)|].
  split; [exact (view_Some _ _ _ _ _ _ _ _ Hs' Ha' Hp' Hsz' Hssz' Hr')|].
  repeat split.
Qed.

Lemma invert_size_frame_witness :
  resolves hero_heap 0 hero /\
  exists h',
    sprite.invert_size 0 hero_heap = Some (Normal 0, h') /\
    sprites h' = sprites hero_heap.
Proof.
  assert (R : resolves hero_heap 0 hero) by (repeat split; eexists; reflexivity).
  split; [exact R|].
  destruct (invert_size_frame hero_heap 0 hero R) as (h' & E & Hsp & _).
  exists h'. split; assumption.
Defined.

(** A sprite whose [size] and [source_size] are one Size object: the two
    [invert()] calls hit the same object, and the size reads 1x2 after
    [invert_size()] as it did before. *)
Lemma invert_size_shared_size_unswapped :
  resolves tile_heap 0 tile /\ ~ invert_size_swaps tile_heap 0.
Proof.
  split; [repeat split; eexists; reflexivity|].
  intros (v & h' & v' & Hv & Hrun & _ & Hv' & Hsz & _).
  assert (E0 : sprite.invert_size 0 tile_heap =
               Some (Normal 0, set_rects (fun _ => [Rectangle.mk 0 0 2 1]) tile_heap))
    by reflexivity.
  assert (h' = set_rects (fun _ => [Rectangle.mk 0 0 2 1]) tile_heap) as ->
    by congruence.
  assert (Hw : f_size <$> view tile_heap 0 = Some (Size.mk 1 2)) by reflexivity.
  assert (Hw' : f_size <$> view (set_rects (fun _ => [Rectangle.mk 0 0 2 1]) tile_heap) 0
                = Some (Size.mk 1 2)) by reflexivity.
  rewrite Hv in Hw. rewrite Hv' in Hw'.
  apply (inj Some) in Hw, Hw'. rewrite Hw, Hw' in Hsz.
  apply (f_equal Size.width) in Hsz. exact (float_1_neq_2 Hsz).
Qed.

(** C5. On the sprite built as [Sprite("tile", size=s, source_size=s)]
    with [s] a 1x2 Size, [invert_size()] calls [invert()] on the one Size
    object twice: afterwards size and source size read 1x2 as before while
    the rectangle reads 2x1, so the sprite's size is not swapped.  The
    sibling [inverted_size()] on the same sprite gives size and source size
    2x1 and rectangle 2x1. *)
Theorem invert_size_shared_size_bug :
  resolves tile_heap 0 tile /\
  Sprite.size tile = Sprite.source_size tile /\
  view tile_heap 0 =
    Some (mkFields "tile" ∅ (Point.mk 0 0) (Size.mk 1 2) (Size.mk 1 2)
                   (Rectangle.mk 0 0 1 2) false 0 None) /\
  (exists h',
      sprite.invert_size 0 tile_heap = Some (Normal 0, h') /\
      view h' 0 =
        Some (mkFields "tile" ∅ (Point.mk 0 0) (Size.mk 1 2) (Size.mk 1 2)
                       (Rectangle.mk 0 0 2 1) false 0 None)) /\
  view_of_result (sprite.inverted_size 0 tile_heap) =
    Some (mkFields "tile" ∅ (Point.mk 0 0) (Size.mk 2 1) (Size.mk 2 1)
                   (Rectangle.mk 0 0 2 1) false 1 None) /\
  ~ invert_size_swaps tile_heap 0.
Proof.
  split; [repeat split; eexists; reflexivity|].
  split; [reflexivity|]. split; [reflexivity|].
  split; [eexists; split; reflexivity|].
  split; [reflexivity|].
  exact (proj2 invert_size_shared_size_unswapped).
Qed.

(** X17. For a sprite whose [size] and [source_size] are distinct objects,
    [invert_size()] swaps width and height of size, of source size
    and of the rectangle in place, keeps the rectangle's origin, and returns
    the sprite itself. *)
Theorem invert_size_swaps_distinct h self s :
  resolves h self s ->
  Sprite.size s <> Sprite.source_size s ->
  invert_size_swaps h self.
Proof.
  intros Hres Hne.
  pose proof (invert_size_run _ _ _ Hres) as Hrun.
  destruct Hres as (Hs & [a Ha] & [p Hp] & [sz Hsz] & [ssz Hssz] & [r Hr]).
  destruct (invert_size_heap_sizes h s sz ssz Hne Hsz Hssz) as [Hsz' Hssz'].
  pose proof (invert_size_heap_rect h s r Hr) as Hr'.
  eexists _, (invert_size_heap s h), _.
  split; [exact (view_Some _ _ _ _ _ _ _ _ Hs Ha Hp Hsz Hssz Hr)|].
  split; [exact Hrun|].
  split; [reflexivity|].
  split.
  { apply (view_Some (invert_size_heap s h) self s a p); try eassumption. }
  repeat split.
Qed.

Lemma invert_size_swaps_distinct_witness :
  (resolves hero_heap 0 hero /\ Sprite.size hero <> Sprite.source_size hero) /\
  invert_size_swaps hero_heap 0.
Proof.
  assert (R : resolves hero_heap 0 hero) by (repeat split; eexists; reflexivity).
  assert (N : Sprite.size hero <> Sprite.source_size hero) by (simpl; lia).
  split; [split; assumption|].
  exact (invert_size_swaps_distinct hero_heap 0 hero R N).
Defined.

(** ** Inversion twice *)

Lemma finite_eqb_refl (f : float) : is_finite f = true -> (f =? f)%float = true.
Proof.
  unfold is_finite, is_nan. now destruct (f =? f)%float.
Qed.

Lemma Point_eq_refl p : geometry.Point_finite p = true -> geometry.Point_eq p p = true.
Proof.
  unfold geometry.Point_finite, geometry.Point_eq.
  rewrite !andb_true_iff. intros [Hx Hy]. split; now apply finite_eqb_refl.
Qed.

Lemma Size_eq_refl s : geometry.Size_finite s = true -> geometry.Size_eq s s = true.
Proof.
  unfold geometry.Size_finite, geometry.Size_eq.
  rewrite !andb_true_iff. intros [Hw Hh]. split; now apply finite_eqb_refl.
Qed.

Lemma Rectangle_eq_refl r :
  geometry.Rectangle_finite r = true -> geometry.Rectangle_eq r r = true.
Proof.
  unfold geometry.Rectangle_finite, geometry.Rectangle_eq.
  rewrite !andb_true_iff. intros [[[Hx Hy] Hw] Hh].
  repeat split; now apply finite_eqb_refl.
Qed.

(** C7. Inverting twice gives back the original value: for a Point, a Size
    and a Rectangle the non-mutating inversion applied twice yields an
    object that holds the components of the original, hence [==] to it
    when these are finite, the original itself being left as it was; and
    for a Sprite two [invert_size()] calls restore the whole store, so its
    size, source size and rectangle are what they were. *)
Theorem inversion_involution :
  (forall h l p,
      points h !! l = Some p ->
      exists q h1 q' h2 p',
        geometry.Point_inverted l h = Some (Normal q, h1) /\
        geometry.Point_inverted q h1 = Some (Normal q', h2) /\
        points h2 !! q' = Some p' /\
        p' = p /\
        (geometry.Point_finite p = true -> geometry.Point_eq p' p = true) /\
        points h2 !! l = Some p) /\
  (forall h l s,
      sizes h !! l = Some s ->
      exists q h1 q' h2 s',
        geometry.Size_inverted l h = Some (Normal q, h1) /\
        geometry.Size_inverted q h1 = Some (Normal q', h2) /\
        sizes h2 !! q' = Some s' /\
        s' = s /\
        (geometry.Size_finite s = true -> geometry.Size_eq s' s = true) /\
        sizes h2 !! l = Some s) /\
  (forall h l r,
      rects h !! l = Some r ->
      exists q h1 q' h2 r',
        geometry.Rectangle_inverted_size l h = Some (Normal q, h1) /\
        geometry.Rectangle_inverted_size q h1 = Some (Normal q', h2) /\
        rects h2 !! q' = Some r' /\
        r' = r /\
        (geometry.Rectangle_finite r = true -> geometry.Rectangle_eq r' r = true) /\
        rects h2 !! l = Some r) /\
  (forall h self s,
      resolves h self s ->
      exists h1,
        sprite.invert_size self h = Some (Normal self, h1) /\
        sprite.invert_size self h1 = Some (Normal self, h) /\
        (self ← sprite.invert_size self; sprite.invert_size self) h
          = Some (Normal self, h)).
Proof.
  repeat apply conj.
  - intros h l p Hp.
    pose proof (Point_inverted_run _ _ _ Hp) as E1.
    set (h1 := set_points _ h) in E1.
    assert (Hq : points h1 !! length (points h) = Some (geometry.swap_point p))
      by now apply list_lookup_middle.
    pose proof (Point_inverted_run _ _ _ Hq) as E2.
    rewrite swap_point_involutive in E2.
    set (h2 := set_points _ h1) in E2.
    exists (length (points h)), h1, (length (points h1)), h2, p.
    split; [exact E1|]. split; [exact E2|].
    split; [now apply list_lookup_middle|].
    split; [reflexivity|].
    split; [apply Point_eq_refl|].
    now do 2 apply lookup_app_l_Some.
  - intros h l s Hs.
    pose proof (Size_inverted_run _ _ _ Hs) as E1.
    set (h1 := set_sizes _ h) in E1.
    assert (Hq : sizes h1 !! length (sizes h) = Some (geometry.swap_size s))
      by now apply list_lookup_middle.
    pose proof (Size_inverted_run _ _ _ Hq) as E2.
    rewrite swap_size_involutive in E2.
    set (h2 := set_sizes _ h1) in E2.
    exists (length (sizes h)), h1, (length (sizes h1)), h2, s.
    split; [exact E1|]. split; [exact E2|].
    split; [now apply list_lookup_middle|].
    split; [reflexivity|].
    split; [apply Size_eq_refl|].
    now do 2 apply lookup_app_l_Some.
  - intros h l r Hr.
    pose proof (Rectangle_inverted_size_run _ _ _ Hr) as E1.
    set (h1 := set_rects _ h) in E1.
    assert (Hq : rects h1 !! length (rects h) = Some (geometry.swap_rect_size r))
      by now apply list_lookup_middle.
    pose proof (Rectangle_inverted_size_run _ _ _ Hq) as E2.
    rewrite swap_rect_size_involutive in E2.
    set (h2 := set_rects _ h1) in E2.
    exists (length (rects h)), h1, (length (rects h1)), h2, r.
    split; [exact E1|]. split; [exact E2|].
    split; [now apply list_lookup_middle|].
    split; [reflexivity|].
    split; [apply Rectangle_eq_refl|].
    now do 2 apply lookup_app_l_Some.
  - intros h self s Hres.
    pose proof (invert_size_run _ _ _ Hres) as E1.
    pose proof (invert_size_run _ _ _ (invert_size_heap_resolves _ _ _ Hres)) as E2.
    rewrite invert_size_heap_twice in E2.
    exists (invert_size_heap s h).
    split; [exact E1|]. split; [exact E2|].
    now run_step E1.
Qed.

Lemma inversion_involution_witness :
  (points hero_heap !! 0 = Some (Point.mk 0 0) /\
   geometry.Point_finite (Point.mk 0 0) = true /\
   exists q h1 q' h2 p',
     geometry.Point_inverted 0 hero_heap = Some (Normal q, h1) /\
     geometry.Point_inverted q h1 = Some (Normal q', h2) /\
     points h2 !! q' = Some p' /\
     geometry.Point_eq p' (Point.mk 0 0) = true) /\
  (sizes hero_heap !! 1 = Some (Size.mk 100 80) /\
   geometry.Size_finite (Size.mk 100 80) = true /\
   exists q h1 q' h2 s',
     geometry.Size_inverted 1 hero_heap = Some (Normal q, h1) /\
     geometry.Size_inverted q h1 = Some (Normal q', h2) /\
     sizes h2 !! q' = Some s' /\
     geometry.Size_eq s' (Size.mk 100 80) = true) /\
  (rects hero_heap !! 0 = Some (Rectangle.mk 2 3 60 80) /\
   geometry.Rectangle_finite (Rectangle.mk 2 3 60 80) = true /\
   exists q h1 q' h2 r',
     geometry.Rectangle_inverted_size 0 hero_heap = Some (Normal q, h1) /\
     geometry.Rectangle_inverted_size q h1 = Some (Normal q', h2) /\
     rects h2 !! q' = Some r' /\
     geometry.Rectangle_eq r' (Rectangle.mk 2 3 60 80) = true) /\
  (resolves tile_heap 0 tile /\
   exists h1,
     sprite.invert_size 0 tile_heap = Some (Normal 0, h1) /\
     sprite.invert_size 0 h1 = Some (Normal 0, tile_heap) /\
     (self ← sprite.invert_size 0; sprite.invert_size self) tile_heap
       = Some (Normal 0, tile_heap)).
Proof.
  destruct inversion_involution as (HP & HS & HR & HSp).
  split.
  { split; [reflexivity|]. split; [reflexivity|].
    destruct (HP hero_heap 0 _ eq_refl) as (q & h1 & q' & h2 & p' & E1 & E2 & L & _ & Q & _).
    exists q, h1, q', h2, p'. repeat split; try assumption. now apply Q. }
  split.
  { split; [reflexivity|]. split; [reflexivity|].
    destruct (HS hero_heap 1 _ eq_refl) as (q & h1 & q' & h2 & s' & E1 & E2 & L & _ & Q & _).
    exists q, h1, q', h2, s'. repeat split; try assumption. now apply Q. }
  split.
  { split; [reflexivity|]. split; [reflexivity|].
    destruct (HR hero_heap 0 _ eq_refl) as (q & h1 & q' & h2 & r' & E1 & E2 & L & _ & Q & _).
    exists q, h1, q', h2, r'. repeat split; try assumption. now apply Q. }
  assert (R : resolves tile_heap 0 tile) by (repeat split; eexists; reflexivity).
  split; [exact R|exact (HSp tile_heap 0 tile R)].
Defined.

(** ** The two inversion forms on sprites *)

Lemma invert_size_heap_sizes_other h s l :
  l <> Sprite.size s -> l <> Sprite.source_size s ->
  sizes (invert_size_heap s h) !! l = sizes h !! l.
Proof.
  intros H1 H2. unfold invert_size_heap, set_rects, set_sizes. cbn [sizes].
  rewrite list_lookup_alter_ne by congruence.
  now rewrite list_lookup_alter_ne by congruence.
Qed.

Lemma invert_size_heap_rects_other h s l :
  l <> Sprite.rectangle s ->
  rects (invert_size_heap s h) !! l = rects h !! l.
Proof.
  intros H1. unfold invert_size_heap, set_rects, set_sizes. cbn [rects].
  now rewrite list_lookup_alter_ne by congruence.
Qed.

Lemma copy_then_invert_run h self s :
  resolves h self s ->
  (c ← sprite.copy self; sprite.invert_size c) h =
    Some (Normal (length (sprites h)),
          invert_size_heap s (set_sprites (fun t => t ++ [copy_of s]) h)).
Proof.
  intros Hres.
  destruct Hres as (Hs & Ha & Hp & Hsz & Hssz & Hr).
  run_step (copy_run _ _ _ Hs).
  apply (invert_size_run _ _ (copy_of s)).
  repeat split; try assumption.
  now apply list_lookup_middle.
Qed.

Lemma copy_then_invert_view h self s a p sz ssz r :
  sprites h !! self = Some s ->
  sets h !! Sprite.aliases s = Some a ->
  points h !! Sprite.relative_offset s = Some p ->
  sizes h !! Sprite.size s = Some sz ->
  sizes h !! Sprite.source_size s = Some ssz ->
  rects h !! Sprite.rectangle s = Some r ->
  Sprite.size s <> Sprite.source_size s ->
  view (invert_size_heap s (set_sprites (fun t => t ++ [copy_of s]) h))
       (length (sprites h)) =
    Some (mkFields (Sprite.name s) a p (geometry.swap_size sz)
                   (geometry.swap_size ssz) (geometry.swap_rect_size r)
                   (Sprite.rotated s) (Sprite.copy_level s + 1)
                   (Sprite.sheet_unchecked s)).
Proof.
  intros Hs Ha Hp Hsz Hssz Hr Hne.
  set (h1 := set_sprites (fun t => t ++ [copy_of s]) h).
  destruct (invert_size_heap_sizes h1 s sz ssz Hne Hsz Hssz) as [Hsz' Hssz'].
  pose proof (invert_size_heap_rect h1 s r Hr) as Hr'.
  apply (view_Some (invert_size_heap s h1) (length (sprites h)) (copy_of s));
    try assumption.
  now apply list_lookup_middle.
Qed.

Lemma inverted_size_view h s a p sz ssz r :
  sets h !! Sprite.aliases s = Some a ->
  points h !! Sprite.relative_offset s = Some p ->
  view (inverted_size_heap s sz ssz r h) (length (sprites h)) =
    Some (mkFields (Sprite.name s) a p (geometry.swap_size sz)
                   (geometry.swap_size ssz) (geometry.swap_rect_size r)
                   (Sprite.rotated s) (Sprite.copy_level s + 1)
                   (Sprite.sheet_unchecked s)).
Proof.
  intros Ha Hp.
  apply (view_Some (inverted_size_heap s sz ssz r h) (length (sprites h))
           (inverted_of h s)); try assumption.
  - now apply list_lookup_middle.
  - now apply list_lookup_middle.
  - change (sizes (inverted_size_heap s sz ssz r h))
      with (sizes h ++ [geometry.swap_size sz; geometry.swap_size ssz]).
    change (Sprite.source_size (inverted_of h s)) with (S (length (sizes h))).
    rewrite lookup_app_r by lia.
    replace (S (length (sizes h)) - length (sizes h)) with 1 by lia.
    reflexivity.
  - now apply list_lookup_middle.
Qed.

(** On the sprite whose [size] and [source_size] are one object,
    [inverted_size()] builds a 2x1 size while the copy inverted in place
    still reads 1x2. *)
Lemma inversion_forms_differ_on_shared_size :
  resolves tile_heap 0 tile /\
  ~ inversion_forms_agree tile_heap 0 /\
  ~ inversion_forms_agree_seq tile_heap 0.
Proof.
  split; [repeat split; eexists; reflexivity|].
  split.
  - intros (v & V1 & V2).
    assert (W1 : f_size <$> view_of_result (sprite.inverted_size 0 tile_heap)
                 = Some (Size.mk 2 1)) by reflexivity.
    assert (W2 : f_size <$> view_of_result
                   ((c ← sprite.copy 0; sprite.invert_size c) tile_heap)
                 = Some (Size.mk 1 2)) by reflexivity.
    rewrite V1 in W1. rewrite V2 in W2.
    apply (inj Some) in W1, W2. rewrite W1 in W2.
    apply (f_equal Size.height) in W2. exact (float_1_neq_2 W2).
  - intros (a & ha & b & hb & v & E1 & E2 & V1 & V2).
    assert (W : (f_size <$>
                   view_of_result
                     ((_ ← sprite.inverted_size 0;
                       c ← sprite.copy 0; sprite.invert_size c) tile_heap))
                = Some (Size.mk 1 2)) by reflexivity.
    rewrite (bind_run _ _ _ _ _ E1), E2 in W. simpl in W. rewrite V2 in W.
    assert (W' : (f_size <$>
                    match (_ ← sprite.inverted_size 0;
                           c ← sprite.copy 0; sprite.invert_size c) tile_heap with
                    | Some (_, h') => view h' 1
                    | None => None
                    end)
                 = Some (Size.mk 2 1)) by reflexivity.
    assert (Ea : sprite.inverted_size 0 tile_heap
                 = Some (Normal 1, inverted_size_heap tile (Size.mk 1 2) (Size.mk 1 2)
                                     (Rectangle.mk 0 0 1 2) tile_heap))
      by reflexivity.
    assert (a = 1) as -> by congruence.
    rewrite (bind_run _ _ _ _ _ E1), E2, V1 in W'.
    apply (inj Some) in W, W'. rewrite W in W'.
    apply (f_equal Size.width) in W'. exact (float_1_neq_2 W').
Qed.

(** C8. On the sprite built as [Sprite("tile", size=s, source_size=s)]
    with [s] a 1x2 Size the two inversion forms differ: [s.inverted_size()]
    has size and source size 2x1, while [s.copy().invert_size()], whose copy
    holds the one Size object and inverts it twice, has size and source
    size 1x2; both have rectangle 2x1 and copy level 1. *)
Theorem inversion_forms_shared_size_bug :
  resolves tile_heap 0 tile /\
  Sprite.size tile = Sprite.source_size tile /\
  view_of_result (sprite.inverted_size 0 tile_heap) =
    Some (mkFields "tile" ∅ (Point.mk 0 0) (Size.mk 2 1) (Size.mk 2 1)
                   (Rectangle.mk 0 0 2 1) false 1 None) /\
  view_of_result ((c ← sprite.copy 0; sprite.invert_size c) tile_heap) =
    Some (mkFields "tile" ∅ (Point.mk 0 0) (Size.mk 1 2) (Size.mk 1 2)
                   (Rectangle.mk 0 0 2 1) false 1 None) /\
  ~ inversion_forms_agree tile_heap 0 /\
  ~ inversion_forms_agree_seq tile_heap 0.
Proof.
  split; [repeat split; eexists; reflexivity|].
  split; [reflexivity|]. split; [reflexivity|]. split; [reflexivity|].
  exact (proj2 inversion_forms_differ_on_shared_size).
Qed.

(** X18. For a sprite whose [size] and [source_size] are distinct objects,
    [s.inverted_size()] is field-wise equal to
    [s.copy().invert_size()] (name, aliases, relative offset, size, source
    size, rectangle, rotated, copy level, sheet binding), when both are
    run from the same store, and when [s.inverted_size()] is evaluated
    first and the two results are compared in the final store. *)
Theorem inversion_forms_agree_distinct h self s :
  resolves h self s ->
  Sprite.size s <> Sprite.source_size s ->
  inversion_forms_agree h self /\ inversion_forms_agree_seq h self.
Proof.
  intros Hres Hne.
  pose proof Hres as (Hs & [a Ha] & [p Hp] & [sz Hsz] & [ssz Hssz] & [r Hr]).
  set (v := mkFields (Sprite.name s) a p (geometry.swap_size sz)
                     (geometry.swap_size ssz) (geometry.swap_rect_size r)
                     (Sprite.rotated s) (Sprite.copy_level s + 1)
                     (Sprite.sheet_unchecked s)).
  pose proof (inverted_size_run _ _ _ _ _ _ Hs Hsz Hssz Hr) as E1.
  set (ha := inverted_size_heap s sz ssz r h) in E1.
  split.
  - exists v. split.
    + rewrite E1. exact (inverted_size_view h s a p sz ssz r Ha Hp).
    + rewrite (copy_then_invert_run _ _ _ Hres).
      exact (copy_then_invert_view _ _ _ _ _ _ _ _ Hs Ha Hp Hsz Hssz Hr Hne).
  - assert (Hs' : sprites ha !! self = Some s) by now apply lookup_app_l_Some.
    assert (Hsz' : sizes ha !! Sprite.size s = Some sz) by now apply lookup_app_l_Some.
    assert (Hssz' : sizes ha !! Sprite.source_size s = Some ssz)
      by now apply lookup_app_l_Some.
    assert (Hr' : rects ha !! Sprite.rectangle s = Some r) by now apply lookup_app_l_Some.
    assert (Hres' : resolves ha self s) by (repeat split; try eexists; eassumption).
    pose proof (copy_then_invert_run _ _ _ Hres') as E2.
    set (hb := invert_size_heap s _) in E2.
    exists (length (sprites h)), ha, (length (sprites ha)), hb, v.
    split; [exact E1|]. split; [exact E2|]. split.
    + pose proof (inverted_size_view h s a p sz ssz r Ha Hp) as Va.
      fold ha in Va.
      transitivity (view ha (length (sprites h))); [|exact Va].
      assert (Hi : sprites ha !! length (sprites h) = Some (inverted_of h s))
        by now apply list_lookup_middle.
      assert (L1 : Sprite.size s < length (sizes h)) by (eapply lookup_lt_Some; eassumption).
      assert (L2 : Sprite.source_size s < length (sizes h))
        by (eapply lookup_lt_Some; eassumption).
      assert (L3 : Sprite.rectangle s < length (rects h))
        by (eapply lookup_lt_Some; eassumption).
      apply (view_ext ha hb _ (inverted_of h s)); try reflexivity.
      * exact Hi.
      * change (sprites hb) with (sprites ha ++ [copy_of s]).
        now apply lookup_app_l_Some.
      * apply (invert_size_heap_sizes_other
                 (set_sprites (fun t => t ++ [copy_of s]) ha) s); simpl; lia.
      * apply (invert_size_heap_sizes_other
                 (set_sprites (fun t => t ++ [copy_of s]) ha) s); simpl; lia.
      * apply (invert_size_heap_rects_other
                 (set_sprites (fun t => t ++ [copy_of s]) ha) s); simpl; lia.
    + exact (copy_then_invert_view ha self s a p sz ssz r Hs' Ha Hp Hsz' Hssz' Hr' Hne).
Qed.

Lemma inversion_forms_agree_distinct_witness :
  (resolves hero_heap 0 hero /\ Sprite.size hero <> Sprite.source_size hero) /\
  inversion_forms_agree hero_heap 0 /\ inversion_forms_agree_seq hero_heap 0.
Proof.
  assert (R : resolves hero_heap 0 hero) by (repeat split; eexists; reflexivity).
  assert (N : Sprite.size hero <> Sprite.source_size hero) by (simpl; lia).
  split; [split; assumption|].
  exact (inversion_forms_agree_distinct hero_heap 0 hero R N).
Defined.

(** ** The sheet binding *)

Lemma binding_after_cons b op rest :
  binding_after b (op :: rest) = binding_after (binding_of op) rest.
Proof.
  unfold binding_after. rewrite last_cons. now destruct (last rest).
Qed.

Lemma with_sheet_same s : sprite.with_sheet s (Sprite.sheet_unchecked s) = s.
Proof. now destruct s. Qed.

Lemma get_sheet_run h self s :
  sprites h !! self = Some s ->
  sprite.get_sheet self h =
    match Sprite.sheet_unchecked s with
    | Some sheet => Some (Normal sheet, h)
    | None => Some (Raised (no_sheet_error s), h)
    end.
Proof.
  intros Hs. unfold sprite.get_sheet.
  run_step (attr_run _ _ _ _ Hs).
  destruct (Sprite.sheet_unchecked s); [reflexivity|].
  now run_step (name_with_copy_run _ _ _ Hs).
Qed.

Lemma write_sprite_run h self s s' :
  sprites h !! self = Some s ->
  write_sprite self s' h = Some (Normal tt, set_sprites (fun t => <[self:=s']> t) h).
Proof. intros Hs. unfold write_sprite. now rewrite Hs. Qed.

Lemma run_op_run h self s op :
  sprites h !! self = Some s ->
  run_op self op h =
    Some (Normal self,
          set_sprites (fun t => <[self:=sprite.with_sheet s (binding_of op)]> t) h).
Proof.
  intros Hs. destruct op as [sheet|]; simpl.
  - unfold sprite.attach_sheet, sprite.set_sheet.
    assert (E : (s0 ← read sprites self;
                 write_sprite self (sprite.with_sheet s0 (Some sheet))) h
                = Some (Normal tt, set_sprites
                          (fun t => <[self:=sprite.with_sheet s (Some sheet)]> t) h)).
    { run_step (read_run sprites _ _ _ Hs).
      now apply (write_sprite_run _ _ s). }
    now run_step E.
  - unfold sprite.detach_sheet, sprite.delete_sheet.
    assert (E : (s0 ← read sprites self;
                 write_sprite self (sprite.with_sheet s0 None)) h
                = Some (Normal tt, set_sprites
                          (fun t => <[self:=sprite.with_sheet s None]> t) h)).
    { run_step (read_run sprites _ _ _ Hs).
      now apply (write_sprite_run _ _ s). }
    now run_step E.
Qed.

Lemma run_ops_run ops : forall h self s,
  sprites h !! self = Some s ->
  exists h',
    run_ops self ops h = Some (Normal tt, h') /\
    sprites h' !! self =
      Some (sprite.with_sheet s (binding_after (Sprite.sheet_unchecked s) ops)) /\
    (forall l, l <> self -> sprites h' !! l = sprites h !! l) /\
    points h' = points h /\ sizes h' = sizes h /\
    rects h' = rects h /\ sets h' = sets h.
Proof.
  induction ops as [|op rest IH]; intros h self s Hs.
  - exists h. split; [reflexivity|].
    split; [unfold binding_after; simpl; now rewrite with_sheet_same|].
    repeat split.
  - pose proof (run_op_run _ _ _ op Hs) as E.
    set (h1 := set_sprites _ h) in E.
    assert (Hs1 : sprites h1 !! self = Some (sprite.with_sheet s (binding_of op))).
    { apply list_lookup_insert_eq. eapply lookup_lt_Some. exact Hs. }
    destruct (IH h1 self _ Hs1) as (h' & Erun & Hs' & Hother & Hp & Hsz & Hr & Hst).
    exists h'. split.
    { change (run_ops self (op :: rest)) with (run_op self op;; run_ops self rest).
      now run_step E. }
    split.
    { rewrite Hs', binding_after_cons. reflexivity. }
    split.
    { intros l Hl. rewrite (Hother l Hl).
      apply list_lookup_insert_ne. congruence. }
    repeat split; assumption.
Qed.

(** C4. [get_sheet] returns the sheet of the most recent [attach_sheet] and
    raises the "Sheet is not attached" ValueError exactly when the sprite
    is unbound: built without a sheet, or after the most recent
    [detach_sheet].  [attach_sheet] replaces whatever binding there was.
    [get_sheet] never changes the store, whether it returns or raises, and
    attaching and detaching change nothing but the sprite's own binding. *)
Theorem sheet_binding_spec :
  (forall h self s,
      sprites h !! self = Some s ->
      (exists o, sprite.get_sheet self h = Some (o, h)) /\
      (forall sheet,
          sprite.get_sheet self h = Some (Normal sheet, h) <->
          Sprite.sheet_unchecked s = Some sheet) /\
      (sprite.get_sheet self h = Some (Raised (no_sheet_error s), h) <->
       Sprite.sheet_unchecked s = None) /\
      ((exists e h', sprite.get_sheet self h = Some (Raised e, h')) <->
       Sprite.sheet_unchecked s = None)) /\
  (forall h self s ops,
      sprites h !! self = Some s ->
      exists h',
        run_ops self ops h = Some (Normal tt, h') /\
        sprite.get_sheet self h' =
          match binding_after (Sprite.sheet_unchecked s) ops with
          | Some sheet => Some (Normal sheet, h')
          | None => Some (Raised (no_sheet_error s), h')
          end /\
        (forall l, l <> self -> sprites h' !! l = sprites h !! l) /\
        points h' = points h /\ sizes h' = sizes h /\
        rects h' = rects h /\ sets h' = sets h) /\
  (forall h self s sheet,
      sprites h !! self = Some s ->
      exists h',
        sprite.attach_sheet self sheet h = Some (Normal self, h') /\
        sprite.get_sheet self h' = Some (Normal sheet, h')) /\
  (forall h self s,
      sprites h !! self = Some s ->
      exists h',
        sprite.detach_sheet self h = Some (Normal self, h') /\
        sprite.get_sheet self h' = Some (Raised (no_sheet_error s), h')) /\
  (forall h name aliases relative_offset size source_size rectangle rotated copy_level,
      exists c h',
        sprite.init name aliases relative_offset size source_size rectangle
                    rotated copy_level None h = Some (Normal c, h') /\
        sprite.get_sheet c h' =
          Some (Raised (no_sheet_error
                          (Sprite.mk name aliases relative_offset size source_size
                                     rectangle rotated copy_level None)), h')).
Proof.
  repeat apply conj.
  - intros h self s Hs. rewrite (get_sheet_run _ _ _ Hs).
    destruct (Sprite.sheet_unchecked s) as [sheet|].
    + split; [eexists; reflexivity|].
      split; [intros sh; split; congruence|].
      split; [split; congruence|].
      split; [intros (e & h' & E); congruence|congruence].
    + split; [eexists; reflexivity|].
      split; [intros sh; split; congruence|].
      split; [split; congruence|].
      split; [reflexivity|]. intros _. eexists _, _. reflexivity.
  - intros h self s ops Hs.
    destruct (run_ops_run ops h self s Hs) as (h' & Erun & Hs' & Hframe).
    exists h'. split; [exact Erun|]. split; [|exact Hframe].
    rewrite (get_sheet_run _ _ _ Hs'). simpl.
    now destruct (binding_after (Sprite.sheet_unchecked s) ops).
  - intros h self s sheet Hs.
    pose proof (run_op_run _ _ _ (Attach sheet) Hs) as E.
    set (h1 := set_sprites _ h) in E. exists h1. split; [exact E|].
    assert (Hs1 : sprites h1 !! self = Some (sprite.with_sheet s (Some sheet))).
    { apply list_lookup_insert_eq. eapply lookup_lt_Some. exact Hs. }
    now rewrite (get_sheet_run _ _ _ Hs1).
  - intros h self s Hs.
    pose proof (run_op_run _ _ _ Detach Hs) as E.
    set (h1 := set_sprites _ h) in E. exists h1. split; [exact E|].
    assert (Hs1 : sprites h1 !! self = Some (sprite.with_sheet s None)).
    { apply list_lookup_insert_eq. eapply lookup_lt_Some. exact Hs. }
    now rewrite (get_sheet_run _ _ _ Hs1).
  - intros h name aliases relative_offset size source_size rectangle rotated copy_level.
    eexists _, _. split; [reflexivity|].
    rewrite (get_sheet_run _ _ (Sprite.mk name aliases relative_offset size source_size
                                          rectangle rotated copy_level None)).
    + reflexivity.
    + now apply list_lookup_middle.
Qed.

Lemma sheet_binding_spec_witness :
  sprites hero_heap !! 0 = Some hero /\
  (sprite.get_sheet 0 hero_heap = Some (Raised (no_sheet_error hero), hero_heap)) /\
  (exists h',
      run_ops 0 [Attach 7; Detach; Attach 4; Attach 5] hero_heap = Some (Normal tt, h') /\
      sprite.get_sheet 0 h' = Some (Normal 5, h')) /\
  (exists h',
      run_ops 0 [Attach 7; Detach] hero_heap = Some (Normal tt, h') /\
      sprite.get_sheet 0 h' = Some (Raised (no_sheet_error hero), h')).
Proof.
  destruct sheet_binding_spec as (HA & HB & _).
  split; [reflexivity|]. split.
  { apply (proj1 (proj2 (proj2 (HA hero_heap 0 hero eq_refl)))). reflexivity. }
  split.
  - destruct (HB hero_heap 0 hero [Attach 7; Detach; Attach 4; Attach 5] eq_refl)
      as (h' & E & G & _).
    exists h'. split; assumption.
  - destruct (HB hero_heap 0 hero [Attach 7; Detach] eq_refl) as (h' & E & G & _).
    exists h'. split; assumption.
Defined.


(** * Further properties of gd.image.sprite *)

(** ** Histories of method calls *)

(** [__str__]. *)
Definition Sprite_str (self : loc) : M string :=
  sprite.name_with_copy self.

(** One call of a method or property of [Sprite] on the sprite [self]. *)
Inductive call :=
| Call_str (self : loc)
| Call_invert_size (self : loc)
| Call_inverted_size (self : loc)
| Call_name_with_copy (self : loc)
| Call_next_copy_level (self : loc)
| Call_offset (self : loc)
| Call_get_sheet (self : loc)
| Call_set_sheet (self : loc) (sheet : loc)
| Call_delete_sheet (self : loc)
| Call_attach_sheet (self : loc) (sheet : loc)
| Call_detach_sheet (self : loc)
| Call_is_rotated (self : loc)
| Call_copy (self : loc).

Definition target (c : call) : loc :=
  match c with
  | Call_str self | Call_invert_size self | Call_inverted_size self
  | Call_name_with_copy self | Call_next_copy_level self | Call_offset self
  | Call_get_sheet self | Call_set_sheet self _ | Call_delete_sheet self
  | Call_attach_sheet self _ | Call_detach_sheet self | Call_is_rotated self
  | Call_copy self => self
  end.

(** Run a computation for its effect. *)
Definition discard {A} (m : M A) : M unit :=
  m;; mret tt.

Definition run_call (c : call) : M unit :=
  match c with
  | Call_str self => discard (Sprite_str self)
  | Call_invert_size self => discard (sprite.invert_size self)
  | Call_inverted_size self => discard (sprite.inverted_size self)
  | Call_name_with_copy self => discard (sprite.name_with_copy self)
  | Call_next_copy_level self => discard (sprite.next_copy_level self)
  | Call_offset self => discard (sprite.offset self)
  | Call_get_sheet self => discard (sprite.get_sheet self)
  | Call_set_sheet self sheet => sprite.set_sheet self sheet
  | Call_delete_sheet self => sprite.delete_sheet self
  | Call_attach_sheet self sheet => discard (sprite.attach_sheet self sheet)
  | Call_detach_sheet self => discard (sprite.detach_sheet self)
  | Call_is_rotated self => discard (sprite.is_rotated self)
  | Call_copy self => discard (sprite.copy self)
  end.

(** A history: the calls in turn, up to the first that raises. *)
Fixpoint run_calls (cs : list call) : M unit :=
  match cs with
  | [] => mret tt
  | c :: rest => run_call c;; run_calls rest
  end.

(** A store in which every reference held by a sprite resolves, as in any
    Python heap. *)
Definition wf (h : heap) : Prop :=
  forall l s, sprites h !! l = Some s -> resolves h l s.

(** How a store may differ from an earlier one. *)
Definition evolves (h h' : heap) : Prop :=
  sets h' = sets h /\
  (forall l p, points h !! l = Some p -> points h' !! l = Some p) /\
  (forall l v, sizes h !! l = Some v ->
     sizes h' !! l = Some v \/ sizes h' !! l = Some (geometry.swap_size v)) /\
  (forall l r, rects h !! l = Some r ->
     rects h' !! l = Some r \/ rects h' !! l = Some (geometry.swap_rect_size r)) /\
  (forall l s, sprites h !! l = Some s ->
     exists b, sprites h' !! l = Some (sprite.with_sheet s b)).

Lemma with_sheet_with_sheet s b b' :
  sprite.with_sheet (sprite.with_sheet s b) b' = sprite.with_sheet s b'.
Proof. reflexivity. Qed.

Lemma evolves_refl h : evolves h h.
Proof.
  repeat split; auto.
  intros l s Hs. exists (Sprite.sheet_unchecked s). now rewrite with_sheet_same.
Qed.

Lemma evolves_trans h1 h2 h3 : evolves h1 h2 -> evolves h2 h3 -> evolves h1 h3.
Proof.
  intros (S1 & P1 & Z1 & R1 & Sp1) (S2 & P2 & Z2 & R2 & Sp2).
  split; [congruence|].
  split; [intros l p Hp; apply P2, P1, Hp|].
  split.
  { intros l v Hv. destruct (Z1 l v Hv) as [H|H]; destruct (Z2 l _ H) as [H'|H'];
      rewrite ?swap_size_involutive in H'; auto. }
  split.
  { intros l r Hr. destruct (R1 l r Hr) as [H|H]; destruct (R2 l _ H) as [H'|H'];
      rewrite ?swap_rect_size_involutive in H'; auto. }
  intros l s Hs. destruct (Sp1 l s Hs) as [b Hb].
  destruct (Sp2 l _ Hb) as [b' Hb']. exists b'. exact Hb'.
Qed.

Lemma bind_none {A B} (m : M A) (f : A -> M B) h :
  m h = None -> (m ≫= f) h = None.
Proof. intros E. unfold mbind, M_bind, bind. now rewrite E. Qed.

Lemma bind_raise {A B} (m : M A) (f : A -> M B) h e h' :
  m h = Some (Raised e, h') -> (m ≫= f) h = Some (Raised e, h').
Proof. intros E. unfold mbind, M_bind, bind. now rewrite E. Qed.

Lemma attr_none {A} (f : Sprite.t -> A) self h :
  sprites h !! self = None -> sprite.attr f self h = None.
Proof.
  intros E. unfold sprite.attr. apply bind_none. unfold read. now rewrite E.
Qed.

(** A call on a reference that is no sprite does not run. *)
Lemma run_call_target c h r :
  run_call c h = Some r -> is_Some (sprites h !! target c).
Proof.
  destruct (sprites h !! target c) as [s|] eqn:E; [eauto|].
  intros Hrun. exfalso. revert Hrun.
  assert (Hread : read sprites (target c) h = None) by (unfold read; now rewrite E).
  destruct c; simpl in *;
    unfold discard, Sprite_str, sprite.invert_size, sprite.inverted_size,
      sprite.name_with_copy, sprite.next_copy_level, sprite.offset, sprite.get_sheet,
      sprite.attach_sheet, sprite.detach_sheet, sprite.set_sheet, sprite.delete_sheet,
      sprite.is_rotated, sprite.copy;
    rewrite ?(bind_none _ _ _ (bind_none _ _ _ (attr_none _ _ _ E))),
            ?(bind_none _ _ _ (attr_none _ _ _ E)),
            ?(bind_none _ _ _ (bind_none _ _ _ (bind_none _ _ _ Hread))),
            ?(bind_none _ _ _ Hread),
            ?(attr_none _ _ _ E);
    discriminate.
Qed.

Lemma discard_run {A} (m : M A) h a h' :
  m h = Some (Normal a, h') -> discard m h = Some (Normal tt, h').
Proof. intros E. unfold discard. now run_step E. Qed.

Lemma discard_raise {A} (m : M A) h e h' :
  m h = Some (Raised e, h') -> discard m h = Some (Raised e, h').
Proof. intros E. unfold discard. now apply bind_raise. Qed.

Lemma set_sheet_run h self s sheet :
  sprites h !! self = Some s ->
  sprite.set_sheet self sheet h =
    Some (Normal tt,
          set_sprites (fun t => <[self:=sprite.with_sheet s (Some sheet)]> t) h).
Proof.
  intros Hs. unfold sprite.set_sheet.
  run_step (read_run sprites _ _ _ Hs). now apply (write_sprite_run _ _ s).
Qed.

Lemma delete_sheet_run h self s :
  sprites h !! self = Some s ->
  sprite.delete_sheet self h =
    Some (Normal tt, set_sprites (fun t => <[self:=sprite.with_sheet s None]> t) h).
Proof.
  intros Hs. unfold sprite.delete_sheet.
  run_step (read_run sprites _ _ _ Hs). now apply (write_sprite_run _ _ s).
Qed.

(** The references of a sprite record resolve. *)
Definition refs_valid (h : heap) (s : Sprite.t) : Prop :=
  is_Some (sets h !! Sprite.aliases s) /\
  is_Some (points h !! Sprite.relative_offset s) /\
  is_Some (sizes h !! Sprite.size s) /\
  is_Some (sizes h !! Sprite.source_size s) /\
  is_Some (rects h !! Sprite.rectangle s).

Lemma evolves_refs_valid h h' s :
  evolves h h' -> refs_valid h s -> refs_valid h' s.
Proof.
  intros (S & P & Z & R & _) (Ha & [p Hp] & [sz Hsz] & [ssz Hssz] & [r Hr]).
  repeat split.
  - now rewrite S.
  - rewrite (P _ _ Hp). eauto.
  - destruct (Z _ _ Hsz) as [E|E]; rewrite E; eauto.
  - destruct (Z _ _ Hssz) as [E|E]; rewrite E; eauto.
  - destruct (R _ _ Hr) as [E|E]; rewrite E; eauto.
Qed.

(** Well-formedness carries over when the sprites of the later store are
    those of the earlier one, up to their sheet, or have valid references. *)
Lemma wf_evolves h h' :
  wf h -> evolves h h' ->
  (forall l s', sprites h' !! l = Some s' ->
     (exists s b, sprites h !! l = Some s /\ s' = sprite.with_sheet s b) \/
     refs_valid h' s') ->
  wf h'.
Proof.
  intros Hwf Hev Hsp l s' Hs'.
  split; [exact Hs'|].
  destruct (Hsp l s' Hs') as [(s & b & Hs & ->)|Hv]; [|exact Hv].
  destruct (Hwf l s Hs) as (_ & Hv).
  exact (evolves_refs_valid h h' s Hev Hv).
Qed.

Lemma alter_lookup_cases {A} (f : A -> A) (t : list A) i j v :
  t !! j = Some v ->
  alter f i t !! j = Some v \/ alter f i t !! j = Some (f v).
Proof.
  intros Hv. destruct (decide (i = j)) as [->|Hne].
  - right. now rewrite list_lookup_alter_eq, Hv.
  - left. now rewrite list_lookup_alter_ne.
Qed.

Lemma evolves_invert_size_heap h s : evolves h (invert_size_heap s h).
Proof.
  split; [reflexivity|]. split; [auto|]. split.
  { intros l v Hv. unfold invert_size_heap, set_rects, set_sizes. cbn [sizes].
    destruct (alter_lookup_cases geometry.swap_size (sizes h) (Sprite.size s) l v Hv)
      as [H|H];
      destruct (alter_lookup_cases geometry.swap_size _ (Sprite.source_size s) l _ H)
        as [H'|H']; rewrite ?swap_size_involutive in H'; auto. }
  split.
  { intros l r Hr. unfold invert_size_heap, set_rects, set_sizes. cbn [rects].
    now apply alter_lookup_cases. }
  intros l s0 Hs0. exists (Sprite.sheet_unchecked s0). now rewrite with_sheet_same.
Qed.

Lemma evolves_inverted_size_heap h s sz ssz r :
  evolves h (inverted_size_heap s sz ssz r h).
Proof.
  split; [reflexivity|]. split; [auto|].
  split; [intros l v Hv; left; now apply lookup_app_l_Some|].
  split; [intros l v Hv; left; now apply lookup_app_l_Some|].
  intros l s0 Hs0. exists (Sprite.sheet_unchecked s0). rewrite with_sheet_same.
  now apply lookup_app_l_Some.
Qed.

Lemma evolves_new_sprite h s : evolves h (set_sprites (fun t => t ++ [s]) h).
Proof.
  split; [reflexivity|]. do 3 (split; [auto|]).
  intros l s0 Hs0. exists (Sprite.sheet_unchecked s0). rewrite with_sheet_same.
  now apply lookup_app_l_Some.
Qed.

Lemma evolves_new_point h p : evolves h (set_points (fun t => t ++ [p]) h).
Proof.
  split; [reflexivity|].
  split; [intros l q Hq; now apply lookup_app_l_Some|].
  do 2 (split; [auto|]).
  intros l s0 Hs0. exists (Sprite.sheet_unchecked s0). now rewrite with_sheet_same.
Qed.

Lemma evolves_rebind h self s b :
  sprites h !! self = Some s ->
  evolves h (set_sprites (fun t => <[self:=sprite.with_sheet s b]> t) h).
Proof.
  intros Hs. split; [reflexivity|]. do 3 (split; [auto|]).
  intros l s0 Hs0. cbn [sprites set_sprites].
  destruct (decide (self = l)) as [->|Hne].
  - exists b. rewrite list_lookup_insert_eq by (eapply lookup_lt_Some; exact Hs).
    congruence.
  - exists (Sprite.sheet_unchecked s0).
    rewrite list_lookup_insert_ne by exact Hne. now rewrite with_sheet_same.
Qed.

Lemma wf_rebind h self s b :
  wf h -> sprites h !! self = Some s ->
  wf (set_sprites (fun t => <[self:=sprite.with_sheet s b]> t) h).
Proof.
  intros Hwf Hs. apply (wf_evolves h); [exact Hwf|now apply evolves_rebind|].
  intros l s' Hs'. left. cbn [sprites set_sprites] in Hs'.
  destruct (decide (self = l)) as [->|Hne].
  - rewrite list_lookup_insert_eq in Hs' by (eapply lookup_lt_Some; exact Hs).
    exists s, b. split; congruence.
  - rewrite list_lookup_insert_ne in Hs' by exact Hne.
    exists s', (Sprite.sheet_unchecked s'). now rewrite with_sheet_same.
Qed.

Lemma wf_same_sprites h h' :
  wf h -> evolves h h' -> sprites h' = sprites h -> wf h'.
Proof.
  intros Hwf Hev E. apply (wf_evolves h); [exact Hwf|exact Hev|].
  intros l s' Hs'. left. rewrite E in Hs'.
  exists s', (Sprite.sheet_unchecked s'). now rewrite with_sheet_same.
Qed.

Lemma wf_new_sprite h h0 s :
  wf h -> evolves h h0 -> sprites h0 = sprites h -> refs_valid h0 s ->
  wf (set_sprites (fun t => t ++ [s]) h0).
Proof.
  intros Hwf Hev E Hv.
  apply (wf_evolves h); [exact Hwf| |].
  - eapply evolves_trans; [exact Hev|apply evolves_new_sprite].
  - intros l s' Hs'. cbn [sprites set_sprites] in Hs'. rewrite E in Hs'.
    apply lookup_snoc_Some in Hs' as [[_ Hl]|[_ <-]].
    + left. exists s', (Sprite.sheet_unchecked s'). now rewrite with_sheet_same.
    + right. exact Hv.
Qed.

Lemma wf_inverted_size_heap h self s sz ssz r :
  wf h -> sprites h !! self = Some s ->
  wf (inverted_size_heap s sz ssz r h).
Proof.
  intros Hwf Hs. apply (wf_evolves h); [exact Hwf|apply evolves_inverted_size_heap|].
  intros l s' Hs'.
  change (sprites (inverted_size_heap s sz ssz r h))
    with (sprites h ++ [inverted_of h s]) in Hs'.
  apply lookup_snoc_Some in Hs' as [[_ Hl]|[_ <-]].
  - left. exists s', (Sprite.sheet_unchecked s'). now rewrite with_sheet_same.
  - right. destruct (Hwf _ _ Hs) as (_ & Ha & Hp & _).
    split; [exact Ha|]. split; [exact Hp|].
    split; [exists (geometry.swap_size sz); now apply list_lookup_middle|].
    split.
    + apply lookup_lt_is_Some. cbn. rewrite length_app. simpl. lia.
    + exists (geometry.swap_rect_size r). now apply list_lookup_middle.
Qed.

(** One call on a well-formed store: it runs, the store stays well-formed
    and evolves, and only [get_sheet] on an unbound sprite raises. *)
Lemma run_call_wf c h s :
  wf h -> sprites h !! target c = Some s ->
  exists o h',
    run_call c h = Some (o, h') /\ wf h' /\ evolves h h' /\
    match o with
    | Normal _ => True
    | Raised e =>
        c = Call_get_sheet (target c) /\ Sprite.sheet_unchecked s = None /\
        e = no_sheet_error s /\ h' = h
    end.
Proof.
  intros Hwf Hs. pose proof (Hwf _ _ Hs) as Hres.
  pose proof Hres as (_ & [a Ha] & [p Hp] & [sz Hsz] & [ssz Hssz] & [r Hr]).
  destruct c as [self|self|self|self|self|self|self|self sheet|self|self sheet|self|self|self];
    simpl in Hs, Hres; simpl.
  - exists (Normal tt), h.
    split; [exact (discard_run _ _ _ _ (name_with_copy_run _ _ _ Hs))|].
    split; [exact Hwf|]. split; [apply evolves_refl|exact I].
  - exists (Normal tt), (invert_size_heap s h).
    split; [exact (discard_run _ _ _ _ (invert_size_run _ _ _ Hres))|].
    split; [|split; [apply evolves_invert_size_heap|exact I]].
    apply (wf_same_sprites h); [exact Hwf|apply evolves_invert_size_heap|reflexivity].
  - exists (Normal tt), (inverted_size_heap s sz ssz r h).
    split; [exact (discard_run _ _ _ _ (inverted_size_run _ _ _ _ _ _ Hs Hsz Hssz Hr))|].
    split; [now apply (wf_inverted_size_heap h self)|].
    split; [apply evolves_inverted_size_heap|exact I].
  - exists (Normal tt), h.
    split; [exact (discard_run _ _ _ _ (name_with_copy_run _ _ _ Hs))|].
    split; [exact Hwf|]. split; [apply evolves_refl|exact I].
  - exists (Normal tt), h.
    split; [exact (discard_run _ _ _ _ (next_copy_level_run _ _ _ Hs))|].
    split; [exact Hwf|]. split; [apply evolves_refl|exact I].
  - eexists (Normal tt), _.
    split; [exact (discard_run _ _ _ _ (offset_run _ _ _ _ _ _ Hs Hp Hssz Hr))|].
    split; [|split; [apply evolves_new_point|exact I]].
    apply (wf_same_sprites h); [exact Hwf|apply evolves_new_point|reflexivity].
  - pose proof (get_sheet_run _ _ _ Hs) as E.
    destruct (Sprite.sheet_unchecked s) as [sheet|] eqn:Hb.
    + exists (Normal tt), h. split; [exact (discard_run _ _ _ _ E)|].
      split; [exact Hwf|]. split; [apply evolves_refl|exact I].
    + exists (Raised (no_sheet_error s)), h.
      split; [exact (discard_raise _ _ _ _ E)|].
      split; [exact Hwf|]. split; [apply evolves_refl|]. repeat split.
  - eexists (Normal tt), _. split; [exact (set_sheet_run _ _ _ sheet Hs)|].
    split; [now apply wf_rebind|]. split; [now apply evolves_rebind|exact I].
  - eexists (Normal tt), _. split; [exact (delete_sheet_run _ _ _ Hs)|].
    split; [now apply wf_rebind|]. split; [now apply evolves_rebind|exact I].
  - eexists (Normal tt), _.
    split; [exact (discard_run _ _ _ _ (run_op_run _ _ _ (Attach sheet) Hs))|].
    split; [now apply wf_rebind|]. split; [now apply evolves_rebind|exact I].
  - eexists (Normal tt), _.
    split; [exact (discard_run _ _ _ _ (run_op_run _ _ _ Detach Hs))|].
    split; [now apply wf_rebind|]. split; [now apply evolves_rebind|exact I].
  - exists (Normal tt), h.
    split; [exact (discard_run _ _ _ _ (attr_run Sprite.rotated _ _ _ Hs))|].
    split; [exact Hwf|]. split; [apply evolves_refl|exact I].
  - eexists (Normal tt), _.
    split; [exact (discard_run _ _ _ _ (copy_run _ _ _ Hs))|].
    split; [|split; [apply evolves_new_sprite|exact I]].
    apply (wf_new_sprite h h); [exact Hwf|apply evolves_refl|reflexivity|].
    destruct Hres as (_ & Hv). exact Hv.
Qed.

Lemma bind_inv {A B} (m : M A) (f : A -> M B) h o h' :
  (m ≫= f) h = Some (o, h') ->
  (exists e, m h = Some (Raised e, h') /\ o = Raised e) \/
  (exists a h1, m h = Some (Normal a, h1) /\ f a h1 = Some (o, h')).
Proof.
  unfold mbind, M_bind, bind.
  destruct (m h) as [[[a|e] h1]|]; intros E.
  - right. eauto.
  - left. exists e. split; congruence.
  - discriminate.
Qed.

Lemma run_calls_wf_evolves cs : forall h o h',
  wf h -> run_calls cs h = Some (o, h') -> wf h' /\ evolves h h'.
Proof.
  induction cs as [|c rest IH]; intros h o h' Hwf Hrun.
  - assert (h' = h) as -> by (simpl in Hrun; unfold mret, M_ret, ret in Hrun; congruence).
    split; [exact Hwf|apply evolves_refl].
  - change (run_calls (c :: rest)) with (run_call c;; run_calls rest) in Hrun.
    apply bind_inv in Hrun as [(e & Hc & _)|(a & h1 & Hc & Hrest)].
    + destruct (run_call_target _ _ _ Hc) as [s Hs].
      destruct (run_call_wf c h s Hwf Hs) as (o1 & h1 & Hc' & Hwf1 & Hev1 & _).
      assert (h1 = h') as -> by congruence. split; assumption.
    + destruct (run_call_target _ _ _ Hc) as [s Hs].
      destruct (run_call_wf c h s Hwf Hs) as (o1 & h1' & Hc' & Hwf1 & Hev1 & _).
      assert (h1' = h1) as -> by congruence.
      destruct (IH h1 o h' Hwf1 Hrest) as [Hwf' Hev'].
      split; [exact Hwf'|]. eapply evolves_trans; eassumption.
Qed.

Lemma hero_heap_wf : wf hero_heap.
Proof.
  intros [|l] s Hs; [|destruct l; discriminate Hs].
  assert (s = hero) as -> by (simpl in Hs; congruence).
  repeat split; eexists; reflexivity.
Qed.

(** X1. Whatever methods are called on whatever sprites, a sprite keeps its
    name, its rotated flag, its copy level and the objects it holds as
    aliases, relative offset, size, source size and rectangle; so
    [is_rotated], [name_with_copy], [str] and [next_copy_level] answer
    after the history as they did before it. *)
Theorem history_keeps_identity cs h o h' :
  wf h ->
  run_calls cs h = Some (o, h') ->
  forall l s,
    sprites h !! l = Some s ->
    exists s',
      sprites h' !! l = Some s' /\
      Sprite.name s' = Sprite.name s /\
      Sprite.rotated s' = Sprite.rotated s /\
      Sprite.copy_level s' = Sprite.copy_level s /\
      Sprite.aliases s' = Sprite.aliases s /\
      Sprite.relative_offset s' = Sprite.relative_offset s /\
      Sprite.size s' = Sprite.size s /\
      Sprite.source_size s' = Sprite.source_size s /\
      Sprite.rectangle s' = Sprite.rectangle s /\
      (exists b name level,
          sprite.is_rotated l h = Some (Normal b, h) /\
          sprite.is_rotated l h' = Some (Normal b, h') /\
          sprite.name_with_copy l h = Some (Normal name, h) /\
          sprite.name_with_copy l h' = Some (Normal name, h') /\
          Sprite_str l h = Some (Normal name, h) /\
          Sprite_str l h' = Some (Normal name, h') /\
          sprite.next_copy_level l h = Some (Normal level, h) /\
          sprite.next_copy_level l h' = Some (Normal level, h')).
Proof.
  intros Hwf Hrun l s Hs.
  destruct (run_calls_wf_evolves cs h o h' Hwf Hrun) as [_ (_ & _ & _ & _ & Hsp)].
  destruct (Hsp l s Hs) as [b Hs'].
  exists (sprite.with_sheet s b). split; [exact Hs'|].
  do 8 (split; [reflexivity|]).
  eexists _, _, _.
  split; [exact (attr_run Sprite.rotated _ _ _ Hs)|].
  split; [exact (attr_run Sprite.rotated _ _ _ Hs')|].
  split; [exact (name_with_copy_run _ _ _ Hs)|].
  split; [exact (name_with_copy_run _ _ _ Hs')|].
  split; [exact (name_with_copy_run _ _ _ Hs)|].
  split; [exact (name_with_copy_run _ _ _ Hs')|].
  split; [exact (next_copy_level_run _ _ _ Hs)|].
  exact (next_copy_level_run _ _ _ Hs').
Qed.

Lemma history_keeps_identity_witness :
  wf hero_heap /\
  exists o h',
    run_calls [Call_copy 0; Call_invert_size 1; Call_attach_sheet 0 7;
               Call_inverted_size 0; Call_offset 2; Call_detach_sheet 1] hero_heap
      = Some (o, h') /\
    sprite.name_with_copy 0 h' = Some (Normal "hero", h') /\
    sprite.is_rotated 0 h' = Some (Normal false, h').
Proof.
  split; [exact hero_heap_wf|].
  destruct (run_calls [Call_copy 0; Call_invert_size 1; Call_attach_sheet 0 7;
                       Call_inverted_size 0; Call_offset 2; Call_detach_sheet 1]
              hero_heap) as [[o h']|] eqn:E; [|vm_compute in E; discriminate E].
  exists o, h'. split; [reflexivity|].
  destruct (history_keeps_identity _ _ _ _ hero_heap_wf E 0 hero eq_refl)
    as (s' & _ & _ & _ & _ & _ & _ & _ & _ & _ & b & name & level
        & R & R' & N & N' & _).
  assert (name = "hero") as <- by (vm_compute in N; congruence).
  assert (b = false) as <- by (vm_compute in R; congruence).
  split; assumption.
Defined.

Lemma bind_none_inv {A B} (m : M A) (f : A -> M B) h :
  (m ≫= f) h = None ->
  m h = None \/ (exists a h1, m h = Some (Normal a, h1) /\ f a h1 = None).
Proof.
  unfold mbind, M_bind, bind.
  destruct (m h) as [[[a|e] h1]|]; intros E.
  - right. eauto.
  - discriminate.
  - now left.
Qed.

Lemma run_calls_cons_run c rest h h1 :
  run_call c h = Some (Normal tt, h1) ->
  run_calls (c :: rest) h = run_calls rest h1.
Proof.
  intros E. change (run_calls (c :: rest)) with (run_call c;; run_calls rest).
  now run_step E.
Qed.

Lemma run_calls_raised cs : forall h e h',
  wf h -> run_calls cs h = Some (Raised e, h') ->
  exists pre self post s,
    cs = pre ++ Call_get_sheet self :: post /\
    run_calls pre h = Some (Normal tt, h') /\
    sprites h' !! self = Some s /\
    Sprite.sheet_unchecked s = None /\
    e = no_sheet_error s.
Proof.
  induction cs as [|c rest IH]; intros h e h' Hwf Hrun.
  - simpl in Hrun. unfold mret, M_ret, ret in Hrun. discriminate.
  - change (run_calls (c :: rest)) with (run_call c;; run_calls rest) in Hrun.
    apply bind_inv in Hrun as [(e' & Hc & He)|(a & h1 & Hc & Hrest)].
    + destruct (run_call_target _ _ _ Hc) as [s Hs].
      destruct (run_call_wf c h s Hwf Hs) as (o1 & h1 & Hc' & _ & _ & Hexn).
      assert (o1 = Raised e') as -> by congruence.
      destruct Hexn as (Ec & Hb & -> & ->).
      assert (h' = h) as -> by congruence.
      exists [], (target c), rest, s.
      split; [simpl; now rewrite <- Ec|].
      split; [reflexivity|]. split; [exact Hs|]. split; [exact Hb|congruence].
    + destruct a.
      destruct (run_call_target _ _ _ Hc) as [s Hs].
      destruct (run_call_wf c h s Hwf Hs) as (o1 & h1' & Hc' & Hwf1 & _).
      assert (h1' = h1) as -> by congruence.
      destruct (IH h1 e h' Hwf1 Hrest) as (pre & self & post & s' & -> & Hpre & Hrest').
      exists (c :: pre), self, post, s'.
      split; [reflexivity|]. split; [|exact Hrest'].
      now rewrite (run_calls_cons_run _ _ _ _ Hc).
Qed.

Lemma run_calls_stuck cs : forall h,
  wf h -> run_calls cs h = None ->
  exists pre c post h1,
    cs = pre ++ c :: post /\
    run_calls pre h = Some (Normal tt, h1) /\
    sprites h1 !! target c = None.
Proof.
  induction cs as [|c rest IH]; intros h Hwf Hrun.
  - simpl in Hrun. unfold mret, M_ret, ret in Hrun. discriminate.
  - change (run_calls (c :: rest)) with (run_call c;; run_calls rest) in Hrun.
    apply bind_none_inv in Hrun as [Hc|(a & h1 & Hc & Hrest)].
    + exists [], c, rest, h. split; [reflexivity|]. split; [reflexivity|].
      destruct (sprites h !! target c) as [s|] eqn:Hs; [|reflexivity].
      destruct (run_call_wf c h s Hwf Hs) as (o1 & h1 & Hc' & _). congruence.
    + destruct a.
      destruct (run_call_target _ _ _ Hc) as [s Hs].
      destruct (run_call_wf c h s Hwf Hs) as (o1 & h1' & Hc' & Hwf1 & _).
      assert (h1' = h1) as -> by congruence.
      destruct (IH h1 Hwf1 Hrest) as (pre & c' & post & h2 & -> & Hpre & Hnone).
      exists (c :: pre), c', post, h2.
      split; [reflexivity|]. split; [|exact Hnone].
      now rewrite (run_calls_cons_run _ _ _ _ Hc).
Qed.

(** X2. On a store in which every sprite's references resolve, any history
    of method calls leaves such a store; a call runs whenever its target is
    a sprite; and the only exception a history can end in is the ValueError
    of [get_sheet] on a sprite without sheet, raised in the store that the
    calls before it left. *)
Theorem history_well_formed cs h :
  wf h ->
  (forall o h', run_calls cs h = Some (o, h') -> wf h') /\
  (forall c, is_Some (sprites h !! target c) -> is_Some (run_call c h)) /\
  (forall e h',
      run_calls cs h = Some (Raised e, h') ->
      exists pre self post s,
        cs = pre ++ Call_get_sheet self :: post /\
        run_calls pre h = Some (Normal tt, h') /\
        sprites h' !! self = Some s /\
        Sprite.sheet_unchecked s = None /\
        e = no_sheet_error s) /\
  (run_calls cs h = None ->
   exists pre c post h1,
     cs = pre ++ c :: post /\
     run_calls pre h = Some (Normal tt, h1) /\
     sprites h1 !! target c = None).
Proof.
  intros Hwf. split.
  { intros o h' Hrun. exact (proj1 (run_calls_wf_evolves cs h o h' Hwf Hrun)). }
  split.
  { intros c [s Hs]. destruct (run_call_wf c h s Hwf Hs) as (o & h' & E & _).
    rewrite E. eauto. }
  split.
  { intros e h'. now apply run_calls_raised. }
  now apply run_calls_stuck.
Qed.

Lemma history_well_formed_witness :
  wf hero_heap /\
  exists h' pre self post s,
    run_calls [Call_copy 0; Call_attach_sheet 0 7; Call_get_sheet 0;
               Call_get_sheet 1; Call_invert_size 1] hero_heap
      = Some (Raised (no_sheet_error s), h') /\
    [Call_copy 0; Call_attach_sheet 0 7; Call_get_sheet 0;
     Call_get_sheet 1; Call_invert_size 1] = pre ++ Call_get_sheet self :: post /\
    wf h' /\
    sprites h' !! self = Some s.
Proof.
  split; [exact hero_heap_wf|].
  destruct (run_calls [Call_copy 0; Call_attach_sheet 0 7; Call_get_sheet 0;
                       Call_get_sheet 1; Call_invert_size 1] hero_heap)
    as [[[[]|e] h']|] eqn:E;
    [vm_compute in E; discriminate E| |vm_compute in E; discriminate E].
  destruct (history_well_formed
              [Call_copy 0; Call_attach_sheet 0 7; Call_get_sheet 0;
               Call_get_sheet 1; Call_invert_size 1] _ hero_heap_wf)
    as (Hwf' & _ & Hraise & _).
  destruct (Hraise e h' E) as (pre & self & post & s & Ecs & _ & Hs & _ & ->).
  exists h', pre, self, post, s.
  split; [reflexivity|]. split; [exact Ecs|]. split; [exact (Hwf' _ _ E)|exact Hs].
Defined.

(** X3. No history of method calls edits an alias set or a Point (so no
    relative offset), moves a rectangle's origin, or changes a width or a
    height other than by exchanging the two. *)
Theorem history_only_swaps cs h o h' :
  wf h ->
  run_calls cs h = Some (o, h') ->
  sets h' = sets h /\
  (forall l p, points h !! l = Some p -> points h' !! l = Some p) /\
  (forall l v,
      sizes h !! l = Some v ->
      exists v',
        sizes h' !! l = Some v' /\
        ((Size.width v' = Size.width v /\ Size.height v' = Size.height v) \/
         (Size.width v' = Size.height v /\ Size.height v' = Size.width v))) /\
  (forall l r,
      rects h !! l = Some r ->
      exists r',
        rects h' !! l = Some r' /\
        Rectangle.x r' = Rectangle.x r /\ Rectangle.y r' = Rectangle.y r /\
        ((Rectangle.width r' = Rectangle.width r /\
          Rectangle.height r' = Rectangle.height r) \/
         (Rectangle.width r' = Rectangle.height r /\
          Rectangle.height r' = Rectangle.width r))).
Proof.
  intros Hwf Hrun.
  destruct (run_calls_wf_evolves cs h o h' Hwf Hrun) as [_ (S & P & Z & R & _)].
  split; [exact S|]. split; [exact P|]. split.
  - intros l v Hv. destruct (Z l v Hv) as [E|E]; eexists; (split; [exact E|]).
    + left. split; reflexivity.
    + right. split; reflexivity.
  - intros l r Hr. destruct (R l r Hr) as [E|E]; eexists; (split; [exact E|]).
    + do 2 (split; [reflexivity|]). left. split; reflexivity.
    + do 2 (split; [reflexivity|]). right. split; reflexivity.
Qed.

Lemma history_only_swaps_witness :
  wf hero_heap /\
  exists o h' r',
    run_calls [Call_copy 0; Call_invert_size 1; Call_inverted_size 0;
               Call_invert_size 2; Call_offset 0] hero_heap = Some (o, h') /\
    rects h' !! 0 = Some r' /\
    Rectangle.x r' = 2%float /\ Rectangle.y r' = 3%float /\
    points h' !! 0 = Some (Point.mk 0 0).
Proof.
  split; [exact hero_heap_wf|].
  destruct (run_calls [Call_copy 0; Call_invert_size 1; Call_inverted_size 0;
                       Call_invert_size 2; Call_offset 0] hero_heap)
    as [[o h']|] eqn:E; [|vm_compute in E; discriminate E].
  destruct (history_only_swaps _ _ _ _ hero_heap_wf E) as (_ & P & _ & R).
  destruct (R 0 (Rectangle.mk 2 3 60 80) eq_refl) as (r' & Hr' & Hx & Hy & _).
  exists o, h', r'. split; [reflexivity|]. split; [exact Hr'|].
  split; [exact Hx|]. split; [exact Hy|]. exact (P 0 _ eq_refl).
Defined.

(** ** Copies share their geometry, inverted sprites do not *)

Lemma resolves_view h self s :
  resolves h self s -> exists v, view h self = Some v.
Proof.
  intros (Hs & [a Ha] & [p Hp] & [sz Hsz] & [ssz Hssz] & [r Hr]).
  eexists. exact (view_Some _ _ _ _ _ _ _ _ Hs Ha Hp Hsz Hssz Hr).
Qed.

(** X4. [copy()] hands the original's Size and Rectangle objects to the
    copy, so inverting the copy in place inverts the original with it:
    after [c = s.copy(); c.invert_size()] the two sprites read the same
    size, source size and rectangle, the rectangle of [s] has its width and
    height exchanged, and so have its size and source size when these are
    two objects. *)
Theorem copy_invert_size_reaches_original h self s v :
  resolves h self s ->
  view h self = Some v ->
  exists c h' vs vc,
    (c ← sprite.copy self; sprite.invert_size c) h = Some (Normal c, h') /\
    c <> self /\
    view h' self = Some vs /\
    view h' c = Some vc /\
    f_size vs = f_size vc /\
    f_source_size vs = f_source_size vc /\
    f_rectangle vs = f_rectangle vc /\
    f_rectangle vs = geometry.swap_rect_size (f_rectangle v) /\
    (Sprite.size s <> Sprite.source_size s ->
     f_size vs = geometry.swap_size (f_size v) /\
     f_source_size vs = geometry.swap_size (f_source_size v)).
Proof.
  intros Hres Hv.
  pose proof (copy_then_invert_run _ _ _ Hres) as Hrun.
  set (h1 := set_sprites (fun t => t ++ [copy_of s]) h) in *.
  destruct Hres as (Hs & [a Ha] & [p Hp] & [sz Hsz] & [ssz Hssz] & [r Hr]).
  rewrite (view_Some _ _ _ _ _ _ _ _ Hs Ha Hp Hsz Hssz Hr) in Hv.
  apply (inj Some) in Hv. subst v.
  assert (Hs1 : sprites h1 !! self = Some s) by now apply lookup_app_l_Some.
  assert (Hc1 : sprites h1 !! length (sprites h) = Some (copy_of s))
    by now apply list_lookup_middle.
  assert (Hres1 : resolves h1 self s) by (repeat split; try eexists; eassumption).
  destruct (invert_size_heap_resolves _ _ _ Hres1)
    as (Hs' & _ & _ & [sz' Hsz'] & [ssz' Hssz'] & [r' Hr']).
  pose proof (invert_size_heap_rect h1 s r Hr) as Hr2.
  assert (r' = geometry.swap_rect_size r) as -> by congruence.
  exists (length (sprites h)), (invert_size_heap s h1).
  eexists _, _.
  split; [exact Hrun|].
  split; [apply lookup_lt_Some in Hs; lia|].
  split; [exact (view_Some (invert_size_heap s h1) self s a p sz' ssz' _
                   Hs' Ha Hp Hsz' Hssz' Hr')|].
  split; [exact (view_Some (invert_size_heap s h1) (length (sprites h)) (copy_of s)
                   a p sz' ssz' _ Hc1 Ha Hp Hsz' Hssz' Hr')|].
  do 4 (split; [reflexivity|]).
  intros Hne. destruct (invert_size_heap_sizes h1 s sz ssz Hne Hsz Hssz) as [E1 E2].
  simpl. split; congruence.
Qed.

Lemma copy_invert_size_reaches_original_witness :
  resolves hero_heap 0 hero /\
  exists v c h' vs,
    view hero_heap 0 = Some v /\
    (c ← sprite.copy 0; sprite.invert_size c) hero_heap = Some (Normal c, h') /\
    view h' 0 = Some vs /\
    f_rectangle vs = geometry.swap_rect_size (f_rectangle v).
Proof.
  assert (R : resolves hero_heap 0 hero) by (repeat split; eexists; reflexivity).
  split; [exact R|].
  destruct (resolves_view _ _ _ R) as [v Hv].
  destruct (copy_invert_size_reaches_original hero_heap 0 hero v R Hv)
    as (c & h' & vs & vc & E & _ & Hvs & _ & _ & _ & _ & Hr & _).
  exists v, c, h', vs. repeat split; assumption.
Defined.

(** The fields of a sprite one copy level up. *)
Definition bumped (v : fields) : fields :=
  mkFields (f_name v) (f_aliases v) (f_relative_offset v) (f_size v)
           (f_source_size v) (f_rectangle v) (f_rotated v) (f_copy_level v + 1)
           (f_sheet v).

(** X5. [inverted_size()] gives its result Size and Rectangle objects of
    its own: inverting that result in place leaves the original as it was
    and brings the result back to the original's dimensions, so
    [s.inverted_size().invert_size()] is field-wise what [s.copy()]
    returns.  This holds for every sprite, also one whose size and source
    size are one object. *)
Theorem inverted_size_invert_size_is_copy h self s v :
  resolves h self s ->
  view h self = Some v ->
  exists c h',
    (c ← sprite.inverted_size self; sprite.invert_size c) h = Some (Normal c, h') /\
    c <> self /\
    view h' self = Some v /\
    view h' c = Some (bumped v) /\
    view_of_result (sprite.copy self h) = Some (bumped v).
Proof.
  intros Hres Hv.
  destruct Hres as (Hs & [a Ha] & [p Hp] & [sz Hsz] & [ssz Hssz] & [r Hr]).
  rewrite (view_Some _ _ _ _ _ _ _ _ Hs Ha Hp Hsz Hssz Hr) in Hv.
  apply (inj Some) in Hv. subst v.
  pose proof (inverted_size_run _ _ _ _ _ _ Hs Hsz Hssz Hr) as E1.
  set (ha := inverted_size_heap s sz ssz r h) in *.
  set (c := length (sprites h)) in *.
  set (si := inverted_of h s).
  assert (L0 : self < length (sprites h)) by (eapply lookup_lt_Some; eassumption).
  assert (L1 : Sprite.size s < length (sizes h)) by (eapply lookup_lt_Some; eassumption).
  assert (L2 : Sprite.source_size s < length (sizes h))
    by (eapply lookup_lt_Some; eassumption).
  assert (L3 : Sprite.rectangle s < length (rects h))
    by (eapply lookup_lt_Some; eassumption).
  assert (Hc : sprites ha !! c = Some si) by now apply list_lookup_middle.
  assert (Hcz : sizes ha !! Sprite.size si = Some (geometry.swap_size sz))
    by now apply list_lookup_middle.
  assert (Hczz : sizes ha !! Sprite.source_size si = Some (geometry.swap_size ssz)).
  { change (sizes ha) with (sizes h ++ [geometry.swap_size sz; geometry.swap_size ssz]).
    change (Sprite.source_size si) with (S (length (sizes h))).
    rewrite lookup_app_r by lia.
    replace (S (length (sizes h)) - length (sizes h)) with 1 by lia. reflexivity. }
  assert (Hcr : rects ha !! Sprite.rectangle si = Some (geometry.swap_rect_size r))
    by now apply list_lookup_middle.
  assert (Hresc : resolves ha c si) by (repeat split; try eexists; eassumption).
  pose proof (invert_size_run _ _ _ Hresc) as E2.
  assert (Hne : Sprite.size si <> Sprite.source_size si) by (simpl; lia).
  destruct (invert_size_heap_sizes ha si _ _ Hne Hcz Hczz) as [Z1 Z2].
  pose proof (invert_size_heap_rect ha si _ Hcr) as Z3.
  rewrite swap_size_involutive in Z1, Z2. rewrite swap_rect_size_involutive in Z3.
  exists c, (invert_size_heap si ha).
  split; [now run_step E1|].
  split; [unfold c; lia|].
  split.
  { apply (view_Some (invert_size_heap si ha) self s a p sz ssz r); try assumption.
    - now apply lookup_app_l_Some.
    - rewrite (invert_size_heap_sizes_other ha si) by (simpl; lia).
      now apply lookup_app_l_Some.
    - rewrite (invert_size_heap_sizes_other ha si) by (simpl; lia).
      now apply lookup_app_l_Some.
    - rewrite (invert_size_heap_rects_other ha si) by (simpl; lia).
      now apply lookup_app_l_Some. }
  split.
  { exact (view_Some (invert_size_heap si ha) c si a p sz ssz r Hc Ha Hp Z1 Z2 Z3). }
  rewrite (copy_run _ _ _ Hs).
  apply (view_Some (set_sprites (fun t => t ++ [copy_of s]) h) (length (sprites h))
           (copy_of s) a p sz ssz r); try assumption.
  now apply list_lookup_middle.
Qed.

Lemma inverted_size_invert_size_is_copy_witness :
  resolves tile_heap 0 tile /\
  exists v c h',
    view tile_heap 0 = Some v /\
    (c ← sprite.inverted_size 0; sprite.invert_size c) tile_heap = Some (Normal c, h') /\
    view h' 0 = Some v /\
    view h' c = Some (bumped v).
Proof.
  assert (R : resolves tile_heap 0 tile) by (repeat split; eexists; reflexivity).
  split; [exact R|].
  destruct (resolves_view _ _ _ R) as [v Hv].
  destruct (inverted_size_invert_size_is_copy tile_heap 0 tile v R Hv)
    as (c & h' & E & _ & Hvs & Hvc & _).
  exists v, c, h'. repeat split; assumption.
Defined.

(** ** Sheet bindings *)

(** X6. The sheet binding is held by each sprite for itself: a copy takes
    the binding the original has when it is copied, and attaching to or
    detaching from one of the two afterwards never changes what
    [get_sheet] gives for the other. *)
Theorem copy_binding_is_independent h self s ops :
  sprites h !! self = Some s ->
  exists c h1,
    sprite.copy self h = Some (Normal c, h1) /\
    sprite.get_sheet c h1 =
      match Sprite.sheet_unchecked s with
      | Some sheet => Some (Normal sheet, h1)
      | None => Some (Raised (no_sheet_error (copy_of s)), h1)
      end /\
    (exists h2,
        run_ops self ops h1 = Some (Normal tt, h2) /\
        sprite.get_sheet c h2 =
          match Sprite.sheet_unchecked s with
          | Some sheet => Some (Normal sheet, h2)
          | None => Some (Raised (no_sheet_error (copy_of s)), h2)
          end) /\
    (exists h2,
        run_ops c ops h1 = Some (Normal tt, h2) /\
        sprite.get_sheet self h2 =
          match Sprite.sheet_unchecked s with
          | Some sheet => Some (Normal sheet, h2)
          | None => Some (Raised (no_sheet_error s), h2)
          end).
Proof.
  intros Hs.
  assert (Hlt : self < length (sprites h)) by (eapply lookup_lt_Some; exact Hs).
  set (h1 := set_sprites (fun t => t ++ [copy_of s]) h).
  assert (Hs1 : sprites h1 !! self = Some s) by now apply lookup_app_l_Some.
  assert (Hc1 : sprites h1 !! length (sprites h) = Some (copy_of s))
    by now apply list_lookup_middle.
  exists (length (sprites h)), h1.
  split; [now apply copy_run|].
  split; [exact (get_sheet_run _ _ _ Hc1)|].
  split.
  - destruct (run_ops_run ops h1 self s Hs1) as (h2 & Erun & _ & Hother & _).
    exists h2. split; [exact Erun|].
    assert (Hc2 : sprites h2 !! length (sprites h) = Some (copy_of s))
      by (rewrite Hother by lia; exact Hc1).
    exact (get_sheet_run _ _ _ Hc2).
  - destruct (run_ops_run ops h1 _ _ Hc1) as (h2 & Erun & _ & Hother & _).
    exists h2. split; [exact Erun|].
    assert (Hs2 : sprites h2 !! self = Some s) by (rewrite Hother by lia; exact Hs1).
    exact (get_sheet_run _ _ _ Hs2).
Qed.

Lemma copy_binding_is_independent_witness :
  sprites hero_heap !! 0 = Some hero /\
  exists c h1 h2,
    sprite.copy 0 hero_heap = Some (Normal c, h1) /\
    run_ops 0 [Attach 7; Attach 9] h1 = Some (Normal tt, h2) /\
    sprite.get_sheet c h2 = Some (Raised (no_sheet_error (copy_of hero)), h2).
Proof.
  split; [reflexivity|].
  destruct (copy_binding_is_independent hero_heap 0 hero [Attach 7; Attach 9] eq_refl)
    as (c & h1 & E & _ & (h2 & Erun & G) & _).
  exists c, h1, h2. repeat split; assumption.
Defined.

Lemma rebind_rebind h self s b b' :
  sprites h !! self = Some s ->
  set_sprites (fun t => <[self:=sprite.with_sheet (sprite.with_sheet s b) b']> t)
    (set_sprites (fun t => <[self:=sprite.with_sheet s b]> t) h) =
  set_sprites (fun t => <[self:=sprite.with_sheet s b']> t) h.
Proof.
  intros Hs. unfold set_sprites. cbn [points sizes rects sets sprites].
  now rewrite list_insert_insert_eq.
Qed.

Lemma rebind_same h self s :
  sprites h !! self = Some s ->
  set_sprites (fun t => <[self:=sprite.with_sheet s (Sprite.sheet_unchecked s)]> t) h = h.
Proof.
  intros Hs. destruct h as [pt sz rc st sp]. unfold set_sprites. simpl in *.
  rewrite with_sheet_same. now rewrite list_insert_id.
Qed.

Lemma run_op_twice h self s op op' :
  sprites h !! self = Some s ->
  (run_op self op;; run_op self op') h =
    Some (Normal self,
          set_sprites (fun t => <[self:=sprite.with_sheet s (binding_of op')]> t) h).
Proof.
  intros Hs. run_step (run_op_run _ _ _ op Hs).
  set (h1 := set_sprites _ h).
  assert (Hs1 : sprites h1 !! self = Some (sprite.with_sheet s (binding_of op))).
  { apply list_lookup_insert_eq. eapply lookup_lt_Some. exact Hs. }
  rewrite (run_op_run _ _ _ op' Hs1). subst h1.
  now rewrite (rebind_rebind _ _ _ _ _ Hs).
Qed.

(** X7. Binding calls compose by "the last call decides", as equalities of
    whole stores: attaching and then attaching again, or detaching, leaves
    the store that the second call alone would leave; attaching the sheet a
    sprite already has, or detaching an unbound sprite, changes nothing; so
    attaching to an unbound sprite and detaching again restores the store.
    The same holds of the [sheet] property's setter and deleter. *)
Theorem binding_calls_compose h self s :
  sprites h !! self = Some s ->
  (forall a b,
      (sprite.attach_sheet self a;; sprite.attach_sheet self b) h =
      sprite.attach_sheet self b h) /\
  (forall a,
      (sprite.attach_sheet self a;; sprite.detach_sheet self) h =
      sprite.detach_sheet self h) /\
  (forall a,
      (sprite.detach_sheet self;; sprite.attach_sheet self a) h =
      sprite.attach_sheet self a h) /\
  (sprite.detach_sheet self;; sprite.detach_sheet self) h = sprite.detach_sheet self h /\
  (forall a,
      Sprite.sheet_unchecked s = Some a ->
      sprite.attach_sheet self a h = Some (Normal self, h)) /\
  (Sprite.sheet_unchecked s = None ->
   sprite.detach_sheet self h = Some (Normal self, h) /\
   forall a,
     (sprite.attach_sheet self a;; sprite.detach_sheet self) h = Some (Normal self, h)) /\
  (forall a b,
      (sprite.set_sheet self a;; sprite.set_sheet self b) h = sprite.set_sheet self b h) /\
  (forall a,
      (sprite.set_sheet self a;; sprite.delete_sheet self) h = sprite.delete_sheet self h).
Proof.
  intros Hs.
  assert (Hlt : self < length (sprites h)) by (eapply lookup_lt_Some; exact Hs).
  split.
  { intros a b. etransitivity; [exact (run_op_twice h self s (Attach a) (Attach b) Hs)|].
    symmetry. exact (run_op_run _ _ _ (Attach b) Hs). }
  split.
  { intros a. etransitivity; [exact (run_op_twice h self s (Attach a) Detach Hs)|].
    symmetry. exact (run_op_run _ _ _ Detach Hs). }
  split.
  { intros a. etransitivity; [exact (run_op_twice h self s Detach (Attach a) Hs)|].
    symmetry. exact (run_op_run _ _ _ (Attach a) Hs). }
  split.
  { etransitivity; [exact (run_op_twice h self s Detach Detach Hs)|].
    symmetry. exact (run_op_run _ _ _ Detach Hs). }
  split.
  { intros a Ha. etransitivity; [exact (run_op_run _ _ _ (Attach a) Hs)|]. simpl.
    rewrite <- Ha. now rewrite (rebind_same _ _ _ Hs). }
  split.
  { intros Hn.
    assert (E : sprite.detach_sheet self h = Some (Normal self, h)).
    { etransitivity; [exact (run_op_run _ _ _ Detach Hs)|]. simpl.
      rewrite <- Hn. now rewrite (rebind_same _ _ _ Hs). }
    split; [exact E|]. intros a.
    etransitivity; [exact (run_op_twice h self s (Attach a) Detach Hs)|].
    rewrite <- E. symmetry. exact (run_op_run _ _ _ Detach Hs). }
  split.
  { intros a b. run_step (set_sheet_run _ _ _ a Hs).
    set (h1 := set_sprites _ h).
    assert (Hs1 : sprites h1 !! self = Some (sprite.with_sheet s (Some a)))
      by now apply list_lookup_insert_eq.
    rewrite (set_sheet_run _ _ _ b Hs1), (set_sheet_run _ _ _ b Hs). subst h1.
    now rewrite (rebind_rebind _ _ _ _ _ Hs). }
  intros a. run_step (set_sheet_run _ _ _ a Hs).
  set (h1 := set_sprites _ h).
  assert (Hs1 : sprites h1 !! self = Some (sprite.with_sheet s (Some a)))
    by now apply list_lookup_insert_eq.
  rewrite (delete_sheet_run _ _ _ Hs1), (delete_sheet_run _ _ _ Hs). subst h1.
  now rewrite (rebind_rebind _ _ _ _ _ Hs).
Qed.

Lemma binding_calls_compose_witness :
  sprites hero_heap !! 0 = Some hero /\
  Sprite.sheet_unchecked hero = None /\
  (sprite.attach_sheet 0 7;; sprite.detach_sheet 0) hero_heap
    = Some (Normal 0, hero_heap).
Proof.
  split; [reflexivity|]. split; [reflexivity|].
  destruct (binding_calls_compose hero_heap 0 hero eq_refl)
    as (_ & _ & _ & _ & _ & Hround & _).
  exact (proj2 (Hround eq_refl) 7).
Defined.

(** ** Names of copies *)

(** [s.copy().copy()...], [n] times. *)
Fixpoint copy_chain (n : nat) (self : loc) : M loc :=
  match n with
  | O => mret self
  | S k => c ← sprite.copy self; copy_chain k c
  end.

Lemma string_length_app (a b : string) :
  String.length (a +:+ b) = String.length a + String.length b.
Proof.
  induction a as [|ch a IH]; [reflexivity|].
  change (S (String.length (a +:+ b)) = S (String.length a + String.length b)).
  now rewrite IH.
Qed.

Lemma str_repeat_length (m : string) (n : nat) :
  String.length (sprite.str_repeat m n) = n * String.length m.
Proof.
  induction n as [|n IH]; [reflexivity|].
  change (sprite.str_repeat m (S n)) with (m +:+ sprite.str_repeat m n).
  rewrite string_length_app, IH. simpl. lia.
Qed.

Lemma str_repeat_add (m : string) (a b : nat) :
  sprite.str_repeat m (a + b) = sprite.str_repeat m a +:+ sprite.str_repeat m b.
Proof.
  induction a as [|a IH]; [reflexivity|].
  change (m +:+ sprite.str_repeat m (a + b) =
          (m +:+ sprite.str_repeat m a) +:+ sprite.str_repeat m b).
  now rewrite IH, string_app_assoc.
Qed.

Lemma str_mul_nonpos (m : string) (z : Z) : (z <= 0)%Z -> sprite.str_mul m z = EmptyString.
Proof.
  intros Hz. unfold sprite.str_mul. now replace (Z.to_nat z) with 0 by lia.
Qed.

Lemma copy_chain_run n : forall h self s,
  sprites h !! self = Some s ->
  exists c h' s',
    copy_chain n self h = Some (Normal c, h') /\
    sprites h' !! c = Some s' /\
    Sprite.name s' = Sprite.name s /\
    Sprite.copy_level s' = (Sprite.copy_level s + Z.of_nat n)%Z.
Proof.
  induction n as [|n IH]; intros h self s Hs.
  - exists self, h, s. repeat split; [exact Hs|lia].
  - set (h1 := set_sprites (fun t => t ++ [copy_of s]) h).
    assert (Hc1 : sprites h1 !! length (sprites h) = Some (copy_of s))
      by now apply list_lookup_middle.
    destruct (IH h1 _ _ Hc1) as (c & h' & s' & E & Hc & Hn & Hl).
    exists c, h', s'. split.
    { change (copy_chain (S n) self) with (c ← sprite.copy self; copy_chain n c).
      now run_step (copy_run _ _ _ Hs). }
    split; [exact Hc|]. split; [exact Hn|]. rewrite Hl. simpl. lia.
Qed.

(** X8. After [n] successive copies of a sprite the last copy has the
    sprite's name and copy level [n] higher.  Its [name_with_copy], and
    [str], is the sprite's own [name_with_copy] followed by [n] copy markers
    when the sprite's copy level is not negative; when the level reached is
    still zero or negative it is the bare name, without any marker. *)
Theorem copy_chain_names n h self s :
  sprites h !! self = Some s ->
  exists c h' s',
    copy_chain n self h = Some (Normal c, h') /\
    sprites h' !! c = Some s' /\
    Sprite.name s' = Sprite.name s /\
    Sprite.copy_level s' = (Sprite.copy_level s + Z.of_nat n)%Z /\
    ((0 <= Sprite.copy_level s)%Z ->
     exists base,
       sprite.name_with_copy self h = Some (Normal base, h) /\
       sprite.name_with_copy c h' = Some (Normal (marked base n), h') /\
       Sprite_str c h' = Some (Normal (marked base n), h')) /\
    ((Sprite.copy_level s + Z.of_nat n <= 0)%Z ->
     sprite.name_with_copy c h' = Some (Normal (Sprite.name s), h') /\
     Sprite_str c h' = Some (Normal (Sprite.name s), h')).
Proof.
  intros Hs.
  destruct (copy_chain_run n h self s Hs) as (c & h' & s' & E & Hc & Hn & Hl).
  exists c, h', s'. do 4 (split; [assumption|]).
  pose proof (name_with_copy_run _ _ _ Hc) as Nc. rewrite Hn, Hl in Nc.
  split.
  - intros Hpos. eexists. split; [exact (name_with_copy_run _ _ _ Hs)|].
    assert (Nc' : sprite.name_with_copy c h' =
              Some (Normal (marked (Sprite.name s +:+
                  sprite.str_mul sprite.COPY_SUFFIX (Sprite.copy_level s)) n), h')).
    { rewrite Nc. do 3 f_equal. rewrite <- str_repeat_marked.
      unfold sprite.str_mul.
      replace (Z.to_nat (Sprite.copy_level s + Z.of_nat n))
        with (Z.to_nat (Sprite.copy_level s) + n) by lia.
      now rewrite str_repeat_add, string_app_assoc. }
    split; exact Nc'.
  - intros Hneg.
    assert (Nc' : sprite.name_with_copy c h' = Some (Normal (Sprite.name s), h')).
    { rewrite Nc, (str_mul_nonpos _ _ Hneg). now rewrite string_app_empty_r. }
    split; exact Nc'.
Qed.

Lemma copy_chain_names_witness :
  sprites hero_heap !! 0 = Some hero /\
  (0 <= Sprite.copy_level hero)%Z /\
  exists c h',
    copy_chain 3 0 hero_heap = Some (Normal c, h') /\
    sprite.name_with_copy c h' = Some (Normal "hero_copy_copy_copy", h').
Proof.
  split; [reflexivity|]. split; [simpl; lia|].
  destruct (copy_chain_names 3 hero_heap 0 hero eq_refl)
    as (c & h' & s' & E & _ & _ & _ & Hpos & _).
  destruct (Hpos ltac:(simpl; lia)) as (base & Hb & Hc & _).
  assert (base = "hero") as -> by (vm_compute in Hb; congruence).
  exists c, h'. split; [exact E|exact Hc].
Defined.

(** X9. [name_with_copy] as a key.  Among sprites of one name, different
    non-negative copy levels give different keys.  Every level at or below
    zero gives the bare name.  And names are not kept apart: a sprite named
    [n ++ "_copy"] at level [k] and a sprite named [n] at level [k + 1] have
    the same key. *)
Theorem name_with_copy_keys h :
  (forall l1 l2 s1 s2 k,
      sprites h !! l1 = Some s1 ->
      sprites h !! l2 = Some s2 ->
      Sprite.name s1 = Sprite.name s2 ->
      (0 <= Sprite.copy_level s1)%Z ->
      (0 <= Sprite.copy_level s2)%Z ->
      sprite.name_with_copy l1 h = Some (Normal k, h) ->
      sprite.name_with_copy l2 h = Some (Normal k, h) ->
      Sprite.copy_level s1 = Sprite.copy_level s2) /\
  (forall l s,
      sprites h !! l = Some s ->
      (Sprite.copy_level s <= 0)%Z ->
      sprite.name_with_copy l h = Some (Normal (Sprite.name s), h)) /\
  (forall l1 l2 s1 s2,
      sprites h !! l1 = Some s1 ->
      sprites h !! l2 = Some s2 ->
      Sprite.name s1 = Sprite.name s2 +:+ sprite.COPY_SUFFIX ->
      (0 <= Sprite.copy_level s1)%Z ->
      Sprite.copy_level s2 = (Sprite.copy_level s1 + 1)%Z ->
      sprite.name_with_copy l1 h = sprite.name_with_copy l2 h).
Proof.
  split.
  { intros l1 l2 s1 s2 k H1 H2 Hn P1 P2 N1 N2.
    rewrite (name_with_copy_run _ _ _ H1) in N1.
    rewrite (name_with_copy_run _ _ _ H2) in N2.
    assert (E : Sprite.name s1 +:+ sprite.str_mul sprite.COPY_SUFFIX (Sprite.copy_level s1)
              = Sprite.name s2 +:+ sprite.str_mul sprite.COPY_SUFFIX (Sprite.copy_level s2))
      by congruence.
    apply (f_equal String.length) in E.
    rewrite !string_length_app, Hn in E. unfold sprite.str_mul in E.
    rewrite !str_repeat_length in E. simpl in E. lia. }
  split.
  { intros l s Hs Hneg. rewrite (name_with_copy_run _ _ _ Hs).
    now rewrite (str_mul_nonpos _ _ Hneg), string_app_empty_r. }
  intros l1 l2 s1 s2 H1 H2 Hn P1 Hl.
  rewrite (name_with_copy_run _ _ _ H1), (name_with_copy_run _ _ _ H2).
  do 3 f_equal. rewrite Hn, Hl. unfold sprite.str_mul.
  replace (Z.to_nat (Sprite.copy_level s1 + 1)) with (S (Z.to_nat (Sprite.copy_level s1)))
    by lia.
  change (sprite.str_repeat sprite.COPY_SUFFIX (S (Z.to_nat (Sprite.copy_level s1))))
    with (sprite.COPY_SUFFIX +:+
          sprite.str_repeat sprite.COPY_SUFFIX (Z.to_nat (Sprite.copy_level s1))).
  apply string_app_assoc.
Qed.

(** The store of "hero" with two more sprites on the same objects, named
    "hero_copy" at level 0 and "hero" at level 1. *)
Definition heroes_heap : heap :=
  set_sprites
    (fun t => t ++ [Sprite.mk "hero_copy" 0 0 0 1 0 false 0 None;
                    Sprite.mk "hero" 0 0 0 1 0 false 1 None]) hero_heap.

Lemma name_with_copy_keys_witness :
  sprites heroes_heap !! 1 = Some (Sprite.mk "hero_copy" 0 0 0 1 0 false 0 None) /\
  sprites heroes_heap !! 2 = Some (Sprite.mk "hero" 0 0 0 1 0 false 1 None) /\
  sprite.name_with_copy 1 heroes_heap = sprite.name_with_copy 2 heroes_heap.
Proof.
  split; [reflexivity|]. split; [reflexivity|].
  refine (proj2 (proj2 (name_with_copy_keys heroes_heap)) 1 2 _ _
            eq_refl eq_refl eq_refl _ eq_refl).
  simpl. lia.
Defined.

(** ** The render offset *)

(** X10. [offset] only reads: it changes no Sprite, Size, Rectangle or alias
    set and no Point that exists, and returns a Point that was not in the
    store.  Called twice it returns two different Points with the same
    components, and a copy of the sprite has an offset of those components
    too. *)
Theorem offset_reads_only h self s :
  resolves h self s ->
  exists o1 h1 o2 h2 p,
    sprite.offset self h = Some (Normal o1, h1) /\
    sprite.offset self h1 = Some (Normal o2, h2) /\
    points h !! o1 = None /\
    o1 <> o2 /\
    points h2 !! o1 = Some p /\
    points h2 !! o2 = Some p /\
    sprites h2 = sprites h /\ sizes h2 = sizes h /\
    rects h2 = rects h /\ sets h2 = sets h /\
    (forall l q, points h !! l = Some q -> points h2 !! l = Some q) /\
    view h2 self = view h self /\
    (exists c hc oc hc',
        sprite.copy self h = Some (Normal c, hc) /\
        sprite.offset c hc = Some (Normal oc, hc') /\
        points hc' !! oc = Some p).
Proof.
  intros (Hs & Ha & [p Hp] & Hsz & [ss Hss] & [r Hr]).
  pose proof (offset_run _ _ _ _ _ _ Hs Hp Hss Hr) as E1.
  set (q := Point.mk (Point.x p + (Size.width ss - Rectangle.width r) / 2)%float
                     (Point.y p - (Size.height ss - Rectangle.height r) / 2)%float) in *.
  set (h1 := set_points (fun t => t ++ [q]) h) in *.
  assert (Hp1 : points h1 !! Sprite.relative_offset s = Some p)
    by now apply lookup_app_l_Some.
  pose proof (offset_run h1 self s p ss r Hs Hp1 Hss Hr) as E2.
  fold q in E2. set (h2 := set_points (fun t => t ++ [q]) h1) in *.
  exists (length (points h)), h1, (length (points h1)), h2, q.
  split; [exact E1|]. split; [exact E2|].
  split; [now apply lookup_ge_None_2|].
  split; [simpl; rewrite length_app; simpl; lia|].
  split; [apply lookup_app_l_Some; now apply list_lookup_middle|].
  split; [now apply list_lookup_middle|].
  do 4 (split; [reflexivity|]).
  split; [intros l q0 Hq; now do 2 apply lookup_app_l_Some|].
  split.
  { apply (view_ext h h2 self s); try reflexivity; try assumption.
    rewrite Hp. now do 2 apply lookup_app_l_Some. }
  set (hc := set_sprites (fun t => t ++ [copy_of s]) h).
  assert (Hc : sprites hc !! length (sprites h) = Some (copy_of s))
    by now apply list_lookup_middle.
  pose proof (offset_run hc _ (copy_of s) p ss r Hc Hp Hss Hr) as E3. fold q in E3.
  eexists _, hc, _, _. split; [exact (copy_run _ _ _ Hs)|]. split; [exact E3|].
  now apply list_lookup_middle.
Qed.

Lemma offset_reads_only_witness :
  resolves hero_heap 0 hero /\
  exists o1 h1 o2 h2 p,
    sprite.offset 0 hero_heap = Some (Normal o1, h1) /\
    sprite.offset 0 h1 = Some (Normal o2, h2) /\
    o1 <> o2 /\
    points h2 !! o1 = Some p /\ points h2 !! o2 = Some p /\
    view h2 0 = view hero_heap 0.
Proof.
  assert (R : resolves hero_heap 0 hero) by (repeat split; eexists; reflexivity).
  split; [exact R|].
  destruct (offset_reads_only hero_heap 0 hero R)
    as (o1 & h1 & o2 & h2 & p & E1 & E2 & _ & Hne & P1 & P2 & _ & _ & _ & _ & _ & V & _).
  exists o1, h1, o2, h2, p. repeat split; assumption.
Defined.

(** X11. [invert_size()] does not touch the relative offset, so the offset
    of an inverted sprite is the old relative offset corrected by the
    exchanged dimensions: the x component by half the difference of the
    heights, the y component by half the difference of the widths.  When
    size and source size are one object the source size is exchanged twice
    and the rectangle once, and the x component mixes the source width with
    the rectangle height. *)
Theorem offset_after_invert_size h self s p ss r :
  resolves h self s ->
  points h !! Sprite.relative_offset s = Some p ->
  sizes h !! Sprite.source_size s = Some ss ->
  rects h !! Sprite.rectangle s = Some r ->
  exists o h',
    (_ ← sprite.invert_size self; sprite.offset self) h = Some (Normal o, h') /\
    (Sprite.size s <> Sprite.source_size s ->
     points h' !! o =
       Some (Point.mk (Point.x p + (Size.height ss - Rectangle.height r) / 2)%float
                      (Point.y p - (Size.width ss - Rectangle.width r) / 2)%float)) /\
    (Sprite.size s = Sprite.source_size s ->
     points h' !! o =
       Some (Point.mk (Point.x p + (Size.width ss - Rectangle.height r) / 2)%float
                      (Point.y p - (Size.height ss - Rectangle.width r) / 2)%float)).
Proof.
  intros Hres Hp Hss Hr.
  pose proof (invert_size_run _ _ _ Hres) as E1.
  destruct (invert_size_heap_resolves _ _ _ Hres)
    as (Hs' & _ & _ & _ & [ss' Hss'] & _).
  pose proof (invert_size_heap_rect h s r Hr) as Hr'.
  pose proof (offset_run (invert_size_heap s h) self s p ss' _ Hs' Hp Hss' Hr') as E2.
  eexists _, _. split; [run_step E1; exact E2|].
  destruct Hres as (Hs & _ & _ & [sz Hsz] & _ & _).
  split.
  - intros Hne.
    destruct (invert_size_heap_sizes h s sz ss Hne Hsz Hss) as [_ Z].
    assert (ss' = geometry.swap_size ss) as -> by congruence.
    simpl. now apply list_lookup_middle.
  - intros Heq.
    assert (ss' = ss) as ->.
    { rewrite (invert_size_heap_sizes_shared h s Heq) in Hss'. congruence. }
    simpl. now apply list_lookup_middle.
Qed.

Lemma offset_after_invert_size_witness :
  (resolves hero_heap 0 hero /\
   Sprite.size hero <> Sprite.source_size hero) /\
  exists o h',
    (_ ← sprite.invert_size 0; sprite.offset 0) hero_heap = Some (Normal o, h') /\
    points h' !! o = Some (Point.mk 0 (-20)).
Proof.
  assert (R : resolves hero_heap 0 hero) by (repeat split; eexists; reflexivity).
  assert (N : Sprite.size hero <> Sprite.source_size hero) by (simpl; lia).
  split; [split; assumption|].
  destruct (offset_after_invert_size hero_heap 0 hero (Point.mk 0 0) (Size.mk 100 80)
              (Rectangle.mk 2 3 60 80) R eq_refl eq_refl eq_refl)
    as (o & h' & E & Hd & _).
  exists o, h'. split; [exact E|]. exact (Hd N).
Defined.

(** ** The order of the two inversion forms *)

(** The fields of a sprite one copy level up, with exchanged dimensions. *)
Definition bumped_swapped (v : fields) : fields :=
  mkFields (f_name v) (f_aliases v) (f_relative_offset v)
           (geometry.swap_size (f_size v)) (geometry.swap_size (f_source_size v))
           (geometry.swap_rect_size (f_rectangle v)) (f_rotated v)
           (f_copy_level v + 1) (f_sheet v).

(** X19. When [s.copy().invert_size()] is run first it inverts [s] itself,
    whose objects the copy holds, so an [s.inverted_size()] evaluated
    afterwards is built from the inverted [s]: it has the dimensions [s]
    had at the start, while the copy has them exchanged.  For a sprite with
    distinct size and source size objects the two forms then agree only
    where exchanging changes nothing. *)
Theorem inversion_forms_order_matters h self s v :
  resolves h self s ->
  view h self = Some v ->
  Sprite.size s <> Sprite.source_size s ->
  exists b hb a ha,
    (c ← sprite.copy self; sprite.invert_size c) h = Some (Normal b, hb) /\
    sprite.inverted_size self hb = Some (Normal a, ha) /\
    view ha a = Some (bumped v) /\
    view ha b = Some (bumped_swapped v).
Proof.
  intros Hres Hv Hne.
  pose proof (copy_then_invert_run _ _ _ Hres) as Eb.
  destruct Hres as (Hs & [al Ha] & [p Hp] & [sz Hsz] & [ssz Hssz] & [r Hr]).
  rewrite (view_Some _ _ _ _ _ _ _ _ Hs Ha Hp Hsz Hssz Hr) in Hv.
  apply (inj Some) in Hv. subst v.
  set (h1 := set_sprites (fun t => t ++ [copy_of s]) h) in *.
  set (hb := invert_size_heap s h1) in *.
  destruct (invert_size_heap_sizes h1 s sz ssz Hne Hsz Hssz) as [Zb ZZb].
  pose proof (invert_size_heap_rect h1 s r Hr) as Rb.
  fold hb in Zb, ZZb, Rb.
  assert (Hsb : sprites hb !! self = Some s) by now apply lookup_app_l_Some.
  assert (Hcb : sprites hb !! length (sprites h) = Some (copy_of s))
    by now apply list_lookup_middle.
  pose proof (inverted_size_run _ _ _ _ _ _ Hsb Zb ZZb Rb) as Ea.
  set (ha := inverted_size_heap s _ _ _ hb) in *.
  exists (length (sprites h)), hb, (length (sprites hb)), ha.
  split; [exact Eb|]. split; [exact Ea|]. split.
  - pose proof (inverted_size_view hb s al p (geometry.swap_size sz)
                  (geometry.swap_size ssz) (geometry.swap_rect_size r) Ha Hp) as Va.
    rewrite !swap_size_involutive, swap_rect_size_involutive in Va. exact Va.
  - apply (view_Some ha (length (sprites h)) (copy_of s) al p); try assumption.
    + now apply lookup_app_l_Some.
    + now apply lookup_app_l_Some.
    + now apply lookup_app_l_Some.
    + now apply lookup_app_l_Some.
Qed.

Lemma inversion_forms_order_matters_witness :
  (resolves hero_heap 0 hero /\ Sprite.size hero <> Sprite.source_size hero) /\
  exists v b hb a ha,
    view hero_heap 0 = Some v /\
    (c ← sprite.copy 0; sprite.invert_size c) hero_heap = Some (Normal b, hb) /\
    sprite.inverted_size 0 hb = Some (Normal a, ha) /\
    view ha a = Some (bumped v) /\
    view ha b = Some (bumped_swapped v).
Proof.
  assert (R : resolves hero_heap 0 hero) by (repeat split; eexists; reflexivity).
  assert (N : Sprite.size hero <> Sprite.source_size hero) by (simpl; lia).
  split; [split; assumption|].
  destruct (resolves_view _ _ _ R) as [v Hv].
  destruct (inversion_forms_order_matters hero_heap 0 hero v R Hv N)
    as (b & hb & a & ha & Eb & Ea & Va & Vb).
  exists v, b, hb, a, ha. repeat split; assumption.
Defined.

(** * gd.decorators *)

Module decorators.

(** What a call of a wrapped function gives: a value or an exception. *)
Inductive result (E T : Type) :=
| Ok (v : T)
| Err (e : E).
Arguments Ok {E T} v.
Arguments Err {E T} e.

(** ** run_once *)

Section run_once.

(** The decorated callable: it reads and changes a world [W] and returns or
    raises.  [holds_attributes] tells whether attributes can be set on it:
    so for a function made by [def], not for a bound method or a builtin,
    on which the assignment raises the AttributeError [attribute_error].
    The attribute [run_once_result] is kept apart from the world: the
    callable does not set or delete it itself. *)
Context {W Args T E : Type}.
Variable function : Args -> W -> result E T * W.
Variable holds_attributes : bool.
Variable attribute_error : E.

(** [runner], with the attribute as [cell]: [None] while [hasattr] is
    false.  The assignment [function.run_once_result = ...] comes after the
    call has returned. *)
Definition runner (cell : option T) (args : Args) (w : W)
    : result E T * (option T * W) :=
  match cell with
  | None =>
      match function args w with
      | (Ok v, w') =>
          if holds_attributes then (Ok v, (Some v, w'))
          else (Err attribute_error, (None, w'))
      | (Err e, w') => (Err e, (None, w'))
      end
  | Some v => (Ok v, (Some v, w))
  end.

(** Successive calls of [runner]. *)
Fixpoint runner_calls (argss : list Args) (cell : option T) (w : W)
    : list (result E T) * (option T * W) :=
  match argss with
  | [] => ([], (cell, w))
  | args :: rest =>
      let '(r, (cell', w')) := runner cell args w in
      let '(rs, st) := runner_calls rest cell' w' in
      (r :: rs, st)
  end.

Lemma runner_calls_cached rest : forall v w,
  runner_calls rest (Some v) w = (repeat (Ok v) (length rest), (Some v, w)).
Proof.
  induction rest as [|a rest IH]; intros v w; [reflexivity|].
  simpl. now rewrite IH.
Qed.

(** X12. For a callable that holds attributes: once a call has returned,
    the callable is never run again; every later call returns that first
    value, whatever its arguments, and leaves the world as it is.  A call
    in which the callable raises stores nothing, so the next call runs it
    anew.  For a callable that holds no attributes (a bound method, a
    builtin) nothing is ever stored: a call in which the callable returns
    still raises AttributeError, after the callable has run, and the next
    call runs it again. *)
Theorem run_once_runs_once :
  (forall a0 w v w1 rest,
      holds_attributes = true ->
      function a0 w = (Ok v, w1) ->
      runner_calls (a0 :: rest) None w =
        (Ok v :: repeat (Ok v) (length rest), (Some v, w1))) /\
  (forall a0 w e w1 rest,
      function a0 w = (Err e, w1) ->
      runner None a0 w = (Err e, (None, w1)) /\
      runner_calls (a0 :: rest) None w =
        (Err e :: fst (runner_calls rest None w1), snd (runner_calls rest None w1))) /\
  (forall a0 w v w1 rest,
      holds_attributes = false ->
      function a0 w = (Ok v, w1) ->
      runner None a0 w = (Err attribute_error, (None, w1)) /\
      runner_calls (a0 :: rest) None w =
        (Err attribute_error :: fst (runner_calls rest None w1),
         snd (runner_calls rest None w1))).
Proof.
  split.
  { intros a0 w v w1 rest Hh Hf. simpl. rewrite Hf, Hh.
    now rewrite runner_calls_cached. }
  split.
  - intros a0 w e w1 rest Hf. split.
    + unfold runner. now rewrite Hf.
    + simpl. rewrite Hf. now destruct (runner_calls rest None w1).
  - intros a0 w v w1 rest Hh Hf. split.
    + unfold runner. now rewrite Hf, Hh.
    + simpl. rewrite Hf, Hh. now destruct (runner_calls rest None w1).
Qed.

End run_once.

(** A callable that counts its runs in the world and returns the sum of
    its argument and the count. *)
Definition counting (a : nat) (w : nat) : result unit nat * nat :=
  (Ok (a + w), S w).

Lemma run_once_runs_once_witness :
  (counting 5 0 = (Ok 5, 1) /\
   runner_calls counting true tt [5; 7; 9] None 0 = ([Ok 5; Ok 5; Ok 5], (Some 5, 1))) /\
  (counting 5 0 = (Ok 5, 1) /\
   runner_calls counting false tt [5; 7; 9] None 0 = ([Err tt; Err tt; Err tt], (None, 3))).
Proof.
  destruct (run_once_runs_once counting true tt) as (Hheld & _ & _).
  destruct (run_once_runs_once counting false tt) as (_ & _ & Hbare).
  split.
  - split; [reflexivity|]. exact (Hheld 5 0 5 1 [7; 9] eq_refl eq_refl).
  - split; [reflexivity|]. exact (proj2 (Hbare 5 0 5 1 [7; 9] eq_refl eq_refl)).
Defined.

(** ** cache_by *)

Section cache_by.

(** The decorated method of objects [Obj], and the reading of the
    attributes named by [names] - a tuple of values, or the AttributeError
    of a missing one.  Reading attributes changes nothing.  The attributes
    [function._cached] and [function._cached_by] belong to the one function
    object that all instances share; [None] stands for an absent one. *)
Context {W Obj Args T E V : Type} `{EqDecision V}.
Variable function : Obj -> Args -> W -> result E T * W.
Variable get_attrs : Obj -> W -> result E (list V).

Definition cache : Type := (option T * option (list V))%type.

(** The tail of [wrapper]: record the attributes, run the function, keep
    its value. *)
Definition recompute (cached : option T) (actual : list V)
    (self : Obj) (args : Args) (w : W) : result E T * (cache * W) :=
  match function self args w with
  | (Ok r, w') => (Ok r, ((Some r, Some actual), w'))
  | (Err e, w') => (Err e, ((cached, Some actual), w'))
  end.

Definition wrapper (st : cache) (self : Obj) (args : Args) (w : W)
    : result E T * (cache * W) :=
  match get_attrs self w with
  | Err e => (Err e, (st, w))
  | Ok actual =>
      match fst st with
      | None =>
          match function self args w with
          | (Ok r, w') => (Ok r, ((Some r, snd st), w'))
          | (Err e, w') => (Err e, (st, w'))
          end
      | Some cached =>
          match snd st with
          | None => recompute (Some cached) actual self args w
          | Some cached_by =>
              if bool_decide (actual = cached_by)
              then (Ok cached, (st, w))
              else recompute (Some cached) actual self args w
          end
      end
  end.

(** X13. The first call does not record the attributes it was made with,
    so the second call runs the function again even when nothing changed;
    only from then on does a call whose attribute tuple equals the
    recorded one return the cached value without running the function -
    and it does so whatever the arguments and whichever object it is
    called on. *)
Theorem cache_by_hits_from_third_call self args w actual r1 w1 r2 w2 :
  get_attrs self w = Ok actual ->
  function self args w = (Ok r1, w1) ->
  get_attrs self w1 = Ok actual ->
  function self args w1 = (Ok r2, w2) ->
  wrapper (None, None) self args w = (Ok r1, ((Some r1, None), w1)) /\
  wrapper (Some r1, None) self args w1 = (Ok r2, ((Some r2, Some actual), w2)) /\
  (forall other args' w',
      get_attrs other w' = Ok actual ->
      wrapper (Some r2, Some actual) other args' w' =
        (Ok r2, ((Some r2, Some actual), w'))).
Proof.
  intros Ha Hf Ha1 Hf1. split.
  { unfold wrapper. rewrite Ha. simpl. now rewrite Hf. }
  split.
  { unfold wrapper, recompute. rewrite Ha1. simpl. now rewrite Hf1. }
  intros other args' w' Ha'. unfold wrapper. rewrite Ha'. simpl.
  now rewrite bool_decide_eq_true_2.
Qed.

(** X14. When the attributes have changed the new tuple is recorded before
    the function runs.  If the function then raises, the old value stays
    cached under the new tuple, and the next call with these attributes
    returns it: a value computed for other attributes. *)
Theorem cache_by_stale_after_raise cached cached_by self args w actual e w1 :
  get_attrs self w = Ok actual ->
  actual <> cached_by ->
  function self args w = (Err e, w1) ->
  wrapper (Some cached, Some cached_by) self args w =
    (Err e, ((Some cached, Some actual), w1)) /\
  (forall other args' w',
      get_attrs other w' = Ok actual ->
      wrapper (Some cached, Some actual) other args' w' =
        (Ok cached, ((Some cached, Some actual), w'))).
Proof.
  intros Ha Hne Hf. split.
  - unfold wrapper, recompute. rewrite Ha. simpl.
    rewrite bool_decide_eq_false_2 by exact Hne. now rewrite Hf.
  - intros other args' w' Ha'. unfold wrapper. rewrite Ha'. simpl.
    now rewrite bool_decide_eq_true_2.
Qed.

End cache_by.

(** An object is its attribute value; the method returns the attribute
    plus the count of its runs, and raises on a negative attribute. *)
Definition area_like (self : Z) (_ : unit) (w : nat) : result unit Z * nat :=
  if (self <? 0)%Z then (Err tt, S w) else (Ok (self + Z.of_nat w)%Z, S w).

Definition attr_of (self : Z) (_ : nat) : result unit (list Z) :=
  Ok [self].

Lemma cache_by_hits_from_third_call_witness :
  wrapper area_like attr_of (None, None) 4%Z tt 0 = (Ok 4%Z, ((Some 4%Z, None), 1)) /\
  wrapper area_like attr_of (Some 4%Z, None) 4%Z tt 1
    = (Ok 5%Z, ((Some 5%Z, Some [4%Z]), 2)) /\
  wrapper area_like attr_of (Some 5%Z, Some [4%Z]) 4%Z tt 2
    = (Ok 5%Z, ((Some 5%Z, Some [4%Z]), 2)).
Proof.
  destruct (cache_by_hits_from_third_call area_like attr_of 4%Z tt 0 [4%Z] 4%Z 1 5%Z 2
              eq_refl eq_refl eq_refl eq_refl) as (H1 & H2 & H3).
  split; [exact H1|]. split; [exact H2|]. exact (H3 4%Z tt 2 eq_refl).
Defined.

Lemma cache_by_stale_after_raise_witness :
  wrapper area_like attr_of (Some 5%Z, Some [4%Z]) (-1)%Z tt 2
    = (Err tt, ((Some 5%Z, Some [(-1)%Z]), 3)) /\
  wrapper area_like attr_of (Some 5%Z, Some [(-1)%Z]) (-1)%Z tt 3
    = (Ok 5%Z, ((Some 5%Z, Some [(-1)%Z]), 3)).
Proof.
  destruct (cache_by_stale_after_raise area_like attr_of 5%Z [4%Z] (-1)%Z tt 2
              [(-1)%Z] tt 3 eq_refl ltac:(discriminate) eq_refl) as (H1 & H2).
  split; [exact H1|]. exact (H2 (-1)%Z tt 3 eq_refl).
Defined.

(** ** patch *)

Section patch.

(** Function objects [F] with their [__name__]; the patched object is its
    attribute table. *)
Context {F : Type}.
Variable fn_name : F -> string.





End patch.


End decorators.

(** * gd.iter_utils *)

Module iter_utils.

Section extract.

(** Python values [V].  [iter_ v] is what [iter(v)] yields, [None] when
    it raises TypeError; [is_Iterable v] is [isinstance(v, Iterable)];
    [tuple_ t] is the tuple of the values [t], which iterates over them. *)
Context {V : Type}.
Variable iter_ : V -> option (list V).
Variable is_Iterable : V -> bool.
Variable tuple_ : list V -> V.
Hypothesis iter_tuple : forall t, iter_ (tuple_ t) = Some t.

Definition is_iterable (maybe_iterable : V) (use_iter : bool) : bool :=
  if use_iter then
    match iter_ maybe_iterable with
    | Some _ => true
    | None => false
    end
  else is_Iterable maybe_iterable.

Definition extract_iterable_from_tuple (tuple_to_extract : list V)
    (check : V -> bool) : V :=
  if Nat.eqb (length tuple_to_extract) 1 then
    match tuple_to_extract with
    | maybe_return :: _ =>
        if check maybe_return then maybe_return else tuple_ tuple_to_extract
    | [] => tuple_ tuple_to_extract
    end
  else tuple_ tuple_to_extract.

(** The default [check]: [is_iterable] with [use_iter] left at [True]. *)
Definition extract_default (tuple_to_extract : list V) : V :=
  extract_iterable_from_tuple tuple_to_extract (fun v => is_iterable v true).

(** X16. With the default check the value returned can always be iterated.
    Its items are the arguments themselves, except when there is exactly
    one argument and that one can be iterated: then they are the items of
    that argument.  So a list of values passed as one argument and the
    same values passed one by one give the same items, unless the values
    are a single iterable one. *)
Theorem extract_gives_items (args : list V) :
  (exists items, iter_ (extract_default args) = Some items) /\
  (forall x items,
      args = [x] -> iter_ x = Some items ->
      iter_ (extract_default args) = Some items) /\
  ((forall x, args = [x] -> iter_ x = None) ->
   iter_ (extract_default args) = Some args) /\
  (forall packed,
      iter_ packed = Some args ->
      (forall x, args = [x] -> iter_ x = None) ->
      iter_ (extract_default [packed]) = iter_ (extract_default args)).
Proof.
  assert (One : forall x items, iter_ x = Some items ->
                  iter_ (extract_default [x]) = Some items).
  { intros x items Hx. unfold extract_default, extract_iterable_from_tuple, is_iterable.
    simpl. now rewrite Hx. }
  assert (Many : (forall x, args = [x] -> iter_ x = None) ->
                 iter_ (extract_default args) = Some args).
  { intros Hsingle. unfold extract_default, extract_iterable_from_tuple, is_iterable.
    destruct args as [|x [|y rest]]; simpl; try apply iter_tuple.
    rewrite (Hsingle x eq_refl). apply iter_tuple. }
  split.
  { destruct args as [|x [|y rest]].
    - exists []. apply Many. intros x Hx. discriminate Hx.
    - destruct (iter_ x) as [items|] eqn:Hx.
      + exists items. now apply One.
      + exists [x]. apply Many. intros x' Hx'. congruence.
    - exists (x :: y :: rest). apply Many. intros x' Hx'. discriminate Hx'. }
  split; [intros x items -> Hx; now apply One|].
  split; [exact Many|].
  intros packed Hp Hsingle. rewrite (One packed args Hp). symmetry. now apply Many.
Qed.

End extract.

(** Integers, which cannot be iterated, and lists of values, which can. *)
#[warnings="-register-all"]
Inductive pyval :=
| PInt (z : Z)
| PList (items : list pyval).

Definition pyval_iter (v : pyval) : option (list pyval) :=
  match v with
  | PInt _ => None
  | PList items => Some items
  end.

Definition pyval_is_Iterable (v : pyval) : bool :=
  match v with
  | PInt _ => false
  | PList _ => true
  end.

Lemma extract_gives_items_witness :
  (forall t, pyval_iter (PList t) = Some t) /\
  pyval_iter (PList [PInt 1; PInt 2]) = Some [PInt 1; PInt 2] /\
  pyval_iter (extract_default pyval_iter pyval_is_Iterable PList
                [PList [PInt 1; PInt 2]]) =
  pyval_iter (extract_default pyval_iter pyval_is_Iterable PList [PInt 1; PInt 2]).
Proof.
  split; [reflexivity|]. split; [reflexivity|].
  refine (proj2 (proj2 (proj2
            (extract_gives_items pyval_iter pyval_is_Iterable PList
               (fun t => eq_refl) [PInt 1; PInt 2])))
            (PList [PInt 1; PInt 2]) eq_refl _).
  intros x Hx. discriminate Hx.
Defined.

End iter_utils.
